(** * sentry.sentry_metrics.indexer.models

    A shallow embedding of [MetricsKeyIndexer] (the Django model of the
    table [sentry_metricskeyindexer]) and of its class method
    [get_next_values], together with the part of the relational store the
    method talks to: named connections, a sequence, the rows of the table
    and the statements each connection has executed. *)

From Stdlib Require Import ZArith Lia Sorted.
From stdpp Require Import base option list sorting gmap strings.

Local Open Scope Z_scope.

(** ** Values, result tuples and errors *)

(** A column value as the database driver hands it to Python. *)
Inductive value : Type :=
  | VInt (n : Z)
  | VStr (s : string)
  | VTime (t : Z).

#[global] Instance value_eq_dec : EqDecision value.
Proof. solve_decision. Defined.

(** One result row of a cursor: a Python tuple. *)
Definition row : Type := list value.

(** The exceptions of [django.db] that the modelled calls can raise. *)
Inductive error : Type :=
  | ConnectionDoesNotExist (alias : string)
  | ProgrammingError (relation : string)
  | DataError (column : string)
  | IntegrityError (constraint : string).

(** ** A state and error monad

    A call runs against a store of type [S]; it yields either an exception
    or a value, and in both cases the store it leaves behind (a value drawn
    from a sequence stays drawn when a later step of the same call fails). *)

Definition stateE (S A : Type) : Type := S -> (error + A) * S.

Definition ret {S A : Type} (a : A) : stateE S A :=
  fun s => (inr a, s).

Definition raise {S A : Type} (e : error) : stateE S A :=
  fun s => (inl e, s).

Definition bind {S A B : Type} (m : stateE S A) (k : A -> stateE S B) : stateE S B :=
  fun s =>
    match m s with
    | (inl e, s') => (inl e, s')
    | (inr a, s') => k a s'
    end.

Definition gets {S A : Type} (f : S -> A) : stateE S A :=
  fun s => (inr (f s), s).

Definition modify {S : Type} (f : S -> S) : stateE S unit :=
  fun s => (inr tt, f s).

Notation "'let*' x ':=' c1 'in' c2" := (bind c1 (fun x => c2))
  (at level 10, x name, c1 at level 100, c2 at level 200,
   format "'[v' 'let*'  x  ':='  c1  'in' '/' c2 ']'").

(** ** The model class: fields and Meta *)

Inductive default_callable : Type :=
  | timezone_now_callable.

Inductive field : Type :=
  | CharField (max_length : nat)
  | DateTimeField (default : option default_callable).

Record UniqueConstraint : Type := {
  fields : list string;
  name : string;
}.

(** A row of the table (an instance of the model).  The column the source
    calls [string] is [string_] here, the type of its values being
    [string] already; one character of a stored value is one [ascii]. *)
Record MetricsKeyIndexer : Type := {
  id : Z;
  string_ : string;
  date_added : Z;
}.

Definition __include_in_export__ : bool := false.

(** [string = models.CharField(max_length=200)] *)
Definition string_field : field := CharField 200.

(** [date_added = models.DateTimeField(default=timezone.now)] *)
Definition date_added_field : field := DateTimeField (Some timezone_now_callable).

Module Meta.

Definition db_table : string := "sentry_metricskeyindexer".

Definition app_label : string := "sentry".

Definition constraints : list UniqueConstraint :=
  [ {| fields := ["string"]; name := "unique_string" |} ].

End Meta.

(** The value of a named column of a row. *)
Definition column (c : string) (r : MetricsKeyIndexer) : option value :=
  if decide (c = "id") then Some (VInt (id r))
  else if decide (c = "string") then Some (VStr (string_ r))
  else if decide (c = "date_added") then Some (VTime (date_added r))
  else None.

(** ** The store *)

(** The SQL the modelled calls send. *)
Inductive expr : Type :=
  | Nextval (regclass : string).

Inductive from_item : Type :=
  | GenerateSeries (start stop : Z).

Inductive statement : Type :=
  | Select (target : expr) (from : from_item)
  | InsertInto (table : string) (new_id : option Z) (s : string) (t : Z)
  | DeleteFrom (table : string) (pk : Z).

(** One database: the last value each sequence has handed out, the rows of
    [sentry_metricskeyindexer], and the statements executed so far, newest
    first. *)
Record database : Type := {
  sequences : gmap string Z;
  table_rows : list MetricsKeyIndexer;
  statements : list statement;
}.

(** The process: the alias the router gives for writes of the model, the
    configured connections, and the clock [timezone.now] reads. *)
Record world : Type := {
  db_for_write_alias : string;
  connections : gmap string database;
  clock : Z;
}.

(** A DB-API cursor: the connection it belongs to and the rows of the last
    statement that are still to be fetched. *)
Record cursor : Type := {
  cursor_alias : string;
  result_set : list row;
}.

Definition set_sequences (f : gmap string Z -> gmap string Z) (db : database) : database :=
  {| sequences := f (sequences db);
     table_rows := table_rows db;
     statements := statements db |}.

Definition set_table_rows (f : list MetricsKeyIndexer -> list MetricsKeyIndexer)
    (db : database) : database :=
  {| sequences := sequences db;
     table_rows := f (table_rows db);
     statements := statements db |}.

Definition log_statement (q : statement) (db : database) : database :=
  {| sequences := sequences db;
     table_rows := table_rows db;
     statements := q :: statements db |}.

Definition set_connection (alias : string) (db : database) (w : world) : world :=
  {| db_for_write_alias := db_for_write_alias w;
     connections := <[alias := db]> (connections w);
     clock := clock w |}.

(** ** Sequences and set-returning functions *)

(** The sequence behind the primary key of the table. *)
Definition id_seq : string := "sentry_metricskeyindexer_id_seq".

(** Modelled from the spec: the definition of the sequence (the migration
    that creates the table and its [id] column) is not part of the source.
    Following the spec, a sequence is a counter that produces a strictly
    increasing series of integers and moves by one step per value produced:
    a sequence standing at 10 produces 11 next.  The spec gives the counter
    no upper bound, and none is modelled.  Naming a sequence that does not
    exist is an error. *)
Definition nextval (regclass : string) : stateE database Z :=
  fun db =>
    match sequences db !! regclass with
    | None => (inl (ProgrammingError regclass), db)
    | Some last =>
        let v := last + 1 in
        (inr v, set_sequences (fun m => <[regclass := v]> m) db)
    end.

(** [generate_series(start, stop)]: the integers from [start] to [stop],
    none when [stop < start]. *)
Definition generate_series (start stop : Z) : list Z :=
  seqZ start (stop - start + 1).

Definition eval_expr (e : expr) : stateE database value :=
  match e with
  | Nextval regclass => let* v := nextval regclass in ret (VInt v)
  end.

(** The relation an expression names must exist when the statement is
    planned, whether or not a row is produced afterwards. *)
Definition resolve (e : expr) : stateE database unit :=
  fun db =>
    match e with
    | Nextval regclass =>
        match sequences db !! regclass with
        | None => (inl (ProgrammingError regclass), db)
        | Some _ => (inr tt, db)
        end
    end.

(** The target expression is evaluated once per row of the FROM item, in
    the order of the rows; each evaluation gives a one-column result row. *)
Fixpoint select_rows (target : expr) (input : list Z) : stateE database (list row) :=
  match input with
  | [] => ret []
  | _ :: rest =>
      let* v := eval_expr target in
      let* out := select_rows target rest in
      ret ([v] :: out)
  end.

(** ** Constraints of the table *)

(** Modelled from the spec: the [id] column comes from the base class
    [sentry.db.models.Model], which is not part of the source.  Following
    the spec it is an integer primary key, unique, filled from the sequence
    [id_seq] when a row is inserted without one. *)
Definition primary_key : UniqueConstraint :=
  {| fields := ["id"]; name := "sentry_metricskeyindexer_pkey" |}.

Definition table_constraints : list UniqueConstraint :=
  primary_key :: Meta.constraints.

(** Two rows conflict under a uniqueness constraint when they agree on all
    its columns. *)
Definition conflicts (c : UniqueConstraint) (r r' : MetricsKeyIndexer) : bool :=
  forallb (fun f => bool_decide (column f r = column f r')) (fields c).

Definition violated (rows : list MetricsKeyIndexer) (r : MetricsKeyIndexer)
    (c : UniqueConstraint) : bool :=
  existsb (conflicts c r) rows.

(** Whether a string fits the declared column. *)
Definition fits (f : field) (v : string) : bool :=
  match f with
  | CharField max_length => bool_decide (String.length v <= max_length)%nat
  | DateTimeField _ => true
  end.

(** ** Executing statements *)

(** Modelled from the spec: inserting and deleting rows is done by the
    manager and [save] of the base class [sentry.db.models.Model] and by the
    database, neither of which is part of the source.  Following the spec,
    the [string] column is a bounded string (a longer value is refused),
    the [id] is drawn from the sequence when none is given, and the
    uniqueness constraints of the table are checked before the row is
    stored; a violated constraint is reported by its name. *)
Definition insert_into (new_id : option Z) (s : string) (t : Z) : stateE database (list row) :=
  if negb (fits string_field s) then raise (DataError "string")
  else
    let* i := match new_id with
              | Some i => ret i
              | None => nextval id_seq
              end in
    let r := {| id := i; string_ := s; date_added := t |} in
    let* rows := gets table_rows in
    match List.find (violated rows r) table_constraints with
    | Some c => raise (IntegrityError (name c))
    | None =>
        let* _ := modify (set_table_rows (fun l => l ++ [r])) in
        ret [[VInt i]]
    end.

(** Modelled from the spec: see [insert_into]. *)
Definition delete_from (pk : Z) : stateE database (list row) :=
  let* _ := modify (set_table_rows (List.filter (fun r => negb (bool_decide (id r = pk))))) in
  ret [].

Definition execute_statement (q : statement) : stateE database (list row) :=
  let* _ := modify (log_statement q) in
  match q with
  | Select target (GenerateSeries start stop) =>
      let* _ := resolve target in
      select_rows target (generate_series start stop)
  | InsertInto table new_id s t =>
      if decide (table = Meta.db_table) then insert_into new_id s t
      else raise (ProgrammingError table)
  | DeleteFrom table pk =>
      if decide (table = Meta.db_table) then delete_from pk
      else raise (ProgrammingError table)
  end.

(** ** Router, connections and cursors *)

(** [router.db_for_write(cls)] *)
Definition db_for_write : stateE world string :=
  gets db_for_write_alias.

(** Run a database action on the connection [alias]. *)
Definition on_connection {A : Type} (alias : string) (m : stateE database A) : stateE world A :=
  fun w =>
    match connections w !! alias with
    | None => (inl (ConnectionDoesNotExist alias), w)
    | Some db =>
        let '(r, db') := m db in
        (r, set_connection alias db' w)
    end.

(** [connections[using].cursor()] *)
Definition connections_cursor (using_ : string) : stateE world cursor :=
  fun w =>
    match connections w !! using_ with
    | None => (inl (ConnectionDoesNotExist using_), w)
    | Some _ => (inr {| cursor_alias := using_; result_set := [] |}, w)
    end.

(** [cursor.execute(sql, params)]: the statement runs on the cursor's
    connection and its rows become the cursor's result set. *)
Definition execute (c : cursor) (q : statement) : stateE world cursor :=
  let* rows := on_connection (cursor_alias c) (execute_statement q) in
  ret {| cursor_alias := cursor_alias c; result_set := rows |}.

(** [cursor.fetchall()]: all rows not fetched yet, as a list of tuples; the
    cursor is left exhausted. *)
Definition fetchall (c : cursor) : list row * cursor :=
  (result_set c, {| cursor_alias := cursor_alias c; result_set := [] |}).

(** [timezone.now()] *)
Definition timezone_now : stateE world Z :=
  gets clock.

(** ** MetricsKeyIndexer.get_next_values *)

(** The statement
    [SELECT nextval('sentry_metricskeyindexer_id_seq') from generate_series(1,%s)]
    with [num] for its parameter. *)
Definition next_values_sql (num : Z) : statement :=
  Select (Nextval id_seq) (GenerateSeries 1 num).

Definition get_next_values (num : Z) : stateE world (list row) :=
  let* using_ := db_for_write in
  let* connection := connections_cursor using_ in
  let* connection := execute connection (next_values_sql num) in
  ret (fst (fetchall connection)).

(** ** Creating and deleting rows *)

(** [Field.get_default()] *)
Definition get_default (f : field) : stateE world (option Z) :=
  match f with
  | DateTimeField (Some timezone_now_callable) =>
      let* t := timezone_now in ret (Some t)
  | _ => ret None
  end.

(** Modelled from the spec: [MetricsKeyIndexer.objects.create(...)] of the
    base class, which is not part of the source.  A field the caller leaves
    out takes the default its declaration gives; the row is then inserted
    through the connection for writes and the instance comes back with the
    [id] the database reports. *)
Definition create (new_id : option Z) (s : string) (date : option Z)
    : stateE world MetricsKeyIndexer :=
  let* t := match date with
            | Some t => ret t
            | None =>
                let* d := get_default date_added_field in
                match d with
                | Some t => ret t
                | None => raise (IntegrityError "date_added")
                end
            end in
  let* using_ := db_for_write in
  let* c := connections_cursor using_ in
  let* c := execute c (InsertInto Meta.db_table new_id s t) in
  match fst (fetchall c) with
  | [VInt i] :: _ => ret {| id := i; string_ := s; date_added := t |}
  | _ => raise (ProgrammingError "no results to fetch")
  end.

(** Modelled from the spec: deleting the row with a given [id], through the
    base class, which is not part of the source. *)
Definition delete (pk : Z) : stateE world unit :=
  let* using_ := db_for_write in
  let* c := connections_cursor using_ in
  let* _ := execute c (DeleteFrom Meta.db_table pk) in
  ret tt.

(** ** Histories of calls *)

Inductive call : Type :=
  | GetNextValues (num : Z)
  | Create (new_id : option Z) (s : string) (date : option Z)
  | Delete (pk : Z).

Inductive reply : Type :=
  | Rows (rows : list row)
  | Created (r : MetricsKeyIndexer)
  | Deleted
  | Raised (e : error).

Definition answer {A : Type} (f : A -> reply) (x : (error + A) * world) : reply * world :=
  match x with
  | (inl e, w) => (Raised e, w)
  | (inr a, w) => (f a, w)
  end.

Definition perform (c : call) (w : world) : reply * world :=
  match c with
  | GetNextValues num => answer Rows (get_next_values num w)
  | Create new_id s date => answer Created (create new_id s date w)
  | Delete pk => answer (fun _ => Deleted) (delete pk w)
  end.

Fixpoint run (cs : list call) (w : world) : list reply * world :=
  match cs with
  | [] => ([], w)
  | c :: rest =>
      let '(r, w1) := perform c w in
      let '(rs, w2) := run rest w1 in
      (r :: rs, w2)
  end.

(** All result rows that the [get_next_values] calls of a history gave
    back, in the order they were given. *)
Definition returned_rows (rs : list reply) : list row :=
  List.flat_map (fun r => match r with Rows rows => rows | _ => [] end) rs.

(** ** Observations *)

(** The database the router sends writes to. *)
Definition write_database (w : world) : option database :=
  connections w !! db_for_write_alias w.

(** Where the sequence of the table stands. *)
Definition current_value (w : world) : option Z :=
  match write_database w with
  | Some db => sequences db !! id_seq
  | None => None
  end.

(** The result row that wraps one integer. *)
Definition tuple1 (v : Z) : row := [VInt v].

(** The database after the statement of [get_next_values num] has run on
    a database whose sequence stood at [last]. *)
Definition after_next_values (num last : Z) (db : database) : database :=
  set_sequences (fun m => <[id_seq := last + Z.max 0 num]> m)
    (log_statement (next_values_sql num) db).

(** ** Transitions of one database

    What a call may do to the database it writes to: the sequence never
    moves back, the result rows of [get_next_values] lie between where the
    sequence stood and where it stands, and the table is left alone, loses
    the rows with one [id], or gains one row that fits its column and
    violates no constraint. *)

Definition sequence_not_behind (db db' : database) : Prop :=
  match sequences db !! id_seq, sequences db' !! id_seq with
  | Some last, Some last' => last <= last'
  | None, None => True
  | _, _ => False
  end.

Definition rows_between (db db' : database) (r : reply) : Prop :=
  match r with
  | Rows rows =>
      exists last last' vs,
        sequences db !! id_seq = Some last /\
        sequences db' !! id_seq = Some last' /\
        rows = tuple1 <$> vs /\
        StronglySorted Z.lt vs /\
        Forall (fun v => last < v <= last') vs
  | _ => True
  end.

Definition table_step (db db' : database) : Prop :=
  table_rows db' = table_rows db \/
  (exists pk, table_rows db' =
     List.filter (fun r => negb (bool_decide (id r = pk))) (table_rows db)) \/
  (exists r, table_rows db' = table_rows db ++ [r] /\
     fits string_field (string_ r) = true /\
     Forall (fun c => violated (table_rows db) r c = false) table_constraints).

(** A property of the rows of the table that holds on every connection. *)
Definition every_table (P : list MetricsKeyIndexer -> Prop) (w : world) : Prop :=
  forall alias db, connections w !! alias = Some db -> P (table_rows db).

(** ** Two calls at the same time

    Two callers run [get_next_values] on the same connection.  The store
    evaluates one [nextval] at a time, and that is all it promises: the rows
    of the two statements may be produced in any interleaving.  A schedule
    says whose row is produced next ([true]: the first caller); when it
    ends, what is left of the first statement is produced, then what is
    left of the second. *)

Record session : Type := {
  target : expr;
  pending : list Z;
  fetched : list row;
}.

Definition begin (q : statement) : session :=
  match q with
  | Select e (GenerateSeries start stop) =>
      {| target := e; pending := generate_series start stop; fetched := [] |}
  | _ => {| target := Nextval id_seq; pending := []; fetched := [] |}
  end.

(** Produce the next row of a session, if any is left. *)
Definition session_step (s : session) (db : database) : session * database :=
  match pending s with
  | [] => (s, db)
  | _ :: rest =>
      match eval_expr (target s) db with
      | (inr v, db') =>
          ({| target := target s; pending := rest; fetched := fetched s ++ [[v]] |}, db')
      | (inl _, db') =>
          ({| target := target s; pending := []; fetched := fetched s |}, db')
      end
  end.

(** Produce all rows that are left. *)
Definition session_finish (s : session) (db : database) : session * database :=
  match select_rows (target s) (pending s) db with
  | (inr rows, db') =>
      ({| target := target s; pending := []; fetched := fetched s ++ rows |}, db')
  | (inl _, db') =>
      ({| target := target s; pending := []; fetched := fetched s |}, db')
  end.

Fixpoint interleave (schedule : list bool) (a b : session) (db : database)
    : session * session * database :=
  match schedule with
  | [] =>
      let '(a', db1) := session_finish a db in
      let '(b', db2) := session_finish b db1 in
      (a', b', db2)
  | true :: rest =>
      let '(a', db') := session_step a db in
      interleave rest a' b db'
  | false :: rest =>
      let '(b', db') := session_step b db in
      interleave rest a b' db'
  end.

Definition concurrent_statements (schedule : list bool) (qa qb : statement)
    : stateE database (list row * list row) :=
  let* _ := modify (log_statement qa) in
  let* _ := modify (log_statement qb) in
  let* _ := resolve (target (begin qa)) in
  let* _ := resolve (target (begin qb)) in
  fun db =>
    let '(a, b, db') := interleave schedule (begin qa) (begin qb) db in
    (inr (fetched a, fetched b), db').

(** What the two callers get back, under a given schedule. *)
Definition concurrent_get_next_values (schedule : list bool) (a b : Z)
    : stateE world (list row * list row) :=
  let* using_ := db_for_write in
  let* _ := connections_cursor using_ in
  on_connection using_
    (concurrent_statements schedule (next_values_sql a) (next_values_sql b)).

(** What holds of two sessions on the sequence of the table while they
    run: the sequence exists; each session has fetched or still has pending
    its full number of rows; the integers the two have fetched so far have
    nothing in common and none lies above the sequence. *)
Definition sessions_apart (na nb : nat) (a b : session) (db : database) : Prop :=
  target a = Nextval id_seq /\
  target b = Nextval id_seq /\
  exists (last : Z) (va vb : list Z),
    sequences db !! id_seq = Some last /\
    fetched a = tuple1 <$> va /\
    fetched b = tuple1 <$> vb /\
    (length va + length (pending a) = na)%nat /\
    (length vb + length (pending b) = nb)%nat /\
    (forall x, x ∈ va -> x ∈ vb -> False) /\
    (forall x, x ∈ va ++ vb -> x <= last).

(** ** Sample stores *)

Definition sample_database (last : Z) : database :=
  {| sequences := {[ id_seq := last ]}; table_rows := []; statements := [] |}.

Definition sample_world (last : Z) : world :=
  {| db_for_write_alias := "default";
     connections := {[ "default" := sample_database last ]};
     clock := 1600000000 |}.

(** ** Further observations *)

(** How many values a list of requested counts takes from the sequence: a
    count below one takes none. *)
Definition values_taken (nums : list Z) : Z :=
  foldr (fun num acc => Z.max 0 num + acc) 0 nums.

(** What holds of two sessions that started when the sequence stood at
    [first]: each has fetched or still has pending its full number of rows,
    each has fetched its integers in ascending order, and the integers the
    two have fetched are, together, exactly those the sequence has produced
    since. *)
Definition sessions_cover (first : Z) (na nb : nat) (a b : session) (db : database) : Prop :=
  target a = Nextval id_seq /\
  target b = Nextval id_seq /\
  exists (last : Z) (va vb : list Z),
    sequences db !! id_seq = Some last /\
    first <= last /\
    fetched a = tuple1 <$> va /\
    fetched b = tuple1 <$> vb /\
    (length va + length (pending a) = na)%nat /\
    (length vb + length (pending b) = nb)%nat /\
    StronglySorted Z.lt va /\
    StronglySorted Z.lt vb /\
    va ++ vb ≡ₚ seqZ (first + 1) (last - first).

(** * Properties *)

(** ** Sequences *)

Lemma set_sequences_id (name_ : string) (last : Z) (db : database) :
  sequences db !! name_ = Some last ->
  set_sequences (fun m => <[name_ := last]> m) db = db.
Proof.
  intros H. destruct db as [sq rows log]. unfold set_sequences. simpl in *.
  f_equal. by apply insert_id.
Qed.

Lemma set_sequences_twice (name_ : string) (u v : Z) (db : database) :
  set_sequences (fun m => <[name_ := v]> m) (set_sequences (fun m => <[name_ := u]> m) db)
  = set_sequences (fun m => <[name_ := v]> m) db.
Proof.
  unfold set_sequences. simpl. f_equal. apply insert_insert_eq.
Qed.

Lemma nextval_some (name_ : string) (db : database) (last : Z) :
  sequences db !! name_ = Some last ->
  nextval name_ db = (inr (last + 1), set_sequences (fun m => <[name_ := last + 1]> m) db).
Proof. intros H. unfold nextval. by rewrite H. Qed.

Lemma nextval_none (name_ : string) (db : database) :
  sequences db !! name_ = None ->
  nextval name_ db = (inl (ProgrammingError name_), db).
Proof. intros H. unfold nextval. by rewrite H. Qed.

Lemma seqZ_strictly_ascending (n : nat) (m : Z) :
  StronglySorted Z.lt (seqZ m (Z.of_nat n)).
Proof.
  revert m. induction n as [|n IH]; intros m.
  - simpl. constructor.
  - rewrite seqZ_cons by lia. constructor.
    + replace (Z.pred (Z.of_nat (S n))) with (Z.of_nat n) by lia. apply IH.
    + apply Forall_forall. intros x Hx. apply elem_of_seqZ in Hx. lia.
Qed.

Lemma seqZ_sorted (m len : Z) : StronglySorted Z.lt (seqZ m len).
Proof.
  destruct (decide (0 <= len)) as [Hle|Hlt].
  - rewrite <- (Z2Nat.id len) by done. apply seqZ_strictly_ascending.
  - unfold seqZ. replace (Z.to_nat len) with 0%nat by lia. constructor.
Qed.

(** One row per input row, each wrapping the next value of the sequence. *)
Lemma select_rows_nextval (name_ : string) (input : list Z) (db : database) (last : Z) :
  sequences db !! name_ = Some last ->
  select_rows (Nextval name_) input db =
    (inr (tuple1 <$> seqZ (last + 1) (Z.of_nat (length input))),
     set_sequences (fun m => <[name_ := last + Z.of_nat (length input)]> m) db).
Proof.
  revert db last. induction input as [|x rest IH]; intros db last Hseq.
  - simpl. unfold ret. rewrite Z.add_0_r. by rewrite set_sequences_id.
  - cbn [select_rows eval_expr]. unfold bind at 1 2.
    rewrite (nextval_some _ _ _ Hseq). unfold ret at 1. unfold bind.
    rewrite (IH _ (last + 1)); [|simpl; apply lookup_insert_eq].
    unfold ret. rewrite set_sequences_twice.
    rewrite (seqZ_cons (last + 1) (Z.of_nat (length (x :: rest)))) by (simpl; lia).
    replace (Z.pred (Z.of_nat (length (x :: rest)))) with (Z.of_nat (length rest))
      by (simpl; lia).
    replace (last + 1 + Z.of_nat (length rest)) with (last + Z.of_nat (length (x :: rest)))
      by (simpl; lia).
    replace (Z.succ (last + 1)) with (last + 1 + 1) by lia.
    reflexivity.
Qed.

Lemma length_generate_series (start stop : Z) :
  Z.of_nat (length (generate_series start stop)) = Z.max 0 (stop - start + 1).
Proof. unfold generate_series. rewrite length_seqZ. lia. Qed.

Lemma seqZ_max (m len : Z) : seqZ m (Z.max 0 len) = seqZ m len.
Proof.
  unfold seqZ. by replace (Z.to_nat (Z.max 0 len)) with (Z.to_nat len) by lia.
Qed.

Lemma execute_next_values_sql (num : Z) (db : database) (last : Z) :
  sequences db !! id_seq = Some last ->
  execute_statement (next_values_sql num) db =
    (inr (tuple1 <$> seqZ (last + 1) num), after_next_values num last db).
Proof.
  intros Hseq. unfold execute_statement, next_values_sql, after_next_values.
  unfold bind at 1, modify at 1. unfold bind at 1. unfold resolve.
  cbn [sequences log_statement]. rewrite Hseq.
  rewrite (select_rows_nextval id_seq _ _ last) by done.
  rewrite length_generate_series.
  replace (num - 1 + 1) with num by lia. by rewrite seqZ_max.
Qed.

Lemma execute_next_values_sql_missing (num : Z) (db : database) :
  sequences db !! id_seq = None ->
  execute_statement (next_values_sql num) db =
    (inl (ProgrammingError id_seq), log_statement (next_values_sql num) db).
Proof.
  intros Hseq. unfold execute_statement, next_values_sql.
  unfold bind at 1, modify at 1. unfold bind at 1. unfold resolve.
  cbn [sequences log_statement]. by rewrite Hseq.
Qed.

(** ** get_next_values, case by case *)

Lemma get_next_values_ok (num : Z) (w : world) (db : database) (last : Z) :
  write_database w = Some db ->
  sequences db !! id_seq = Some last ->
  get_next_values num w =
    (inr (tuple1 <$> seqZ (last + 1) num),
     set_connection (db_for_write_alias w) (after_next_values num last db) w).
Proof.
  intros Hdb Hseq. unfold write_database in Hdb.
  unfold get_next_values, execute, on_connection, connections_cursor, db_for_write,
    fetchall, bind, gets, ret.
  rewrite Hdb. cbn [cursor_alias]. rewrite Hdb.
  by rewrite (execute_next_values_sql _ _ _ Hseq).
Qed.

Lemma get_next_values_no_sequence (num : Z) (w : world) (db : database) :
  write_database w = Some db ->
  sequences db !! id_seq = None ->
  get_next_values num w =
    (inl (ProgrammingError id_seq),
     set_connection (db_for_write_alias w) (log_statement (next_values_sql num) db) w).
Proof.
  intros Hdb Hseq. unfold write_database in Hdb.
  unfold get_next_values, execute, on_connection, connections_cursor, db_for_write,
    fetchall, bind, gets, ret.
  rewrite Hdb. cbn [cursor_alias]. rewrite Hdb.
  by rewrite (execute_next_values_sql_missing _ _ Hseq).
Qed.

Lemma get_next_values_no_connection (num : Z) (w : world) :
  write_database w = None ->
  get_next_values num w = (inl (ConnectionDoesNotExist (db_for_write_alias w)), w).
Proof.
  intros Hdb. unfold write_database in Hdb.
  unfold get_next_values, db_for_write, gets, bind, connections_cursor.
  by rewrite Hdb.
Qed.

Lemma write_database_set_connection (w : world) (db : database) :
  write_database (set_connection (db_for_write_alias w) db w) = Some db.
Proof. unfold write_database, set_connection. simpl. apply lookup_insert_eq. Qed.

Lemma current_value_set_connection (w : world) (db : database) :
  current_value (set_connection (db_for_write_alias w) db w) = sequences db !! id_seq.
Proof. unfold current_value. by rewrite write_database_set_connection. Qed.

Lemma current_value_some (w : world) (last : Z) :
  current_value w = Some last ->
  exists db, write_database w = Some db /\ sequences db !! id_seq = Some last.
Proof.
  unfold current_value. destruct (write_database w) as [db|]; [|done].
  intros H. by exists db.
Qed.

Lemma after_next_values_sequence (num last : Z) (db : database) :
  sequences (after_next_values num last db) !! id_seq = Some (last + Z.max 0 num).
Proof. unfold after_next_values. simpl. apply lookup_insert_eq. Qed.

Lemma tuple1_inj : Inj (=) (=) tuple1.
Proof. intros x y H. unfold tuple1 in H. congruence. Qed.

(** ** The claims about a single call *)

(** C1. For a positive [num], on a store whose sequence exists,
    [get_next_values num] returns exactly [num] rows; the integers they
    wrap are pairwise distinct and in strictly ascending order. *)
Theorem get_next_values_count_distinct_ascending (num : Z) (w : world) (last : Z) :
  0 < num ->
  current_value w = Some last ->
  exists vs : list Z,
    fst (get_next_values num w) = inr (tuple1 <$> vs) /\
    Z.of_nat (length vs) = num /\
    NoDup vs /\
    StronglySorted Z.lt vs.
Proof.
  intros Hnum Hcur. destruct (current_value_some _ _ Hcur) as (db & Hdb & Hseq).
  exists (seqZ (last + 1) num). rewrite (get_next_values_ok _ _ _ _ Hdb Hseq).
  split; [done|]. split; [rewrite length_seqZ; lia|].
  split; [apply NoDup_seqZ | apply seqZ_sorted].
Qed.

Lemma get_next_values_count_distinct_ascending_witness :
  0 < 3 /\
  current_value (sample_world 10) = Some 10 /\
  exists vs : list Z,
    fst (get_next_values 3 (sample_world 10)) = inr (tuple1 <$> vs) /\
    Z.of_nat (length vs) = 3 /\
    NoDup vs /\
    StronglySorted Z.lt vs.
Proof.
  split; [lia|]. split; [vm_compute; reflexivity|].
  apply (get_next_values_count_distinct_ascending 3 (sample_world 10) 10);
    [lia | vm_compute; reflexivity].
Defined.

(** C2, as the spec states it, fails: called with 0 the method raises
    nothing and its statement reaches the database. *)
Lemma get_next_values_zero_not_rejected :
  ~ ((exists e, fst (get_next_values 0 (sample_world 10)) = inl e) /\
     snd (get_next_values 0 (sample_world 10)) = sample_world 10).
Proof.
  intros [[e He] _].
  rewrite (get_next_values_ok 0 (sample_world 10) (sample_database 10) 10) in He
    by (vm_compute; reflexivity).
  simpl in He. discriminate He.
Qed.

(** C2, amended. For [num] zero or negative, on a store whose sequence
    exists, [get_next_values num] raises nothing: its SELECT is sent to the
    database, the result is the empty list and the sequence stays where it
    stood. *)
Theorem get_next_values_nonpositive (num : Z) (w : world) (last : Z) :
  num <= 0 ->
  current_value w = Some last ->
  fst (get_next_values num w) = inr [] /\
  current_value (snd (get_next_values num w)) = Some last /\
  statements <$> write_database (snd (get_next_values num w)) =
    (fun db => next_values_sql num :: statements db) <$> write_database w.
Proof.
  intros Hnum Hcur. destruct (current_value_some _ _ Hcur) as (db & Hdb & Hseq).
  rewrite (get_next_values_ok _ _ _ _ Hdb Hseq). cbn [fst snd].
  rewrite seqZ_nil by lia. split; [done|].
  rewrite current_value_set_connection, after_next_values_sequence.
  rewrite write_database_set_connection, Hdb.
  split; [f_equal; lia | done].
Qed.

Lemma get_next_values_nonpositive_witness :
  -4 <= 0 /\
  current_value (sample_world 10) = Some 10 /\
  fst (get_next_values (-4) (sample_world 10)) = inr [] /\
  current_value (snd (get_next_values (-4) (sample_world 10))) = Some 10 /\
  statements <$> write_database (snd (get_next_values (-4) (sample_world 10))) =
    (fun db => next_values_sql (-4) :: statements db) <$> write_database (sample_world 10).
Proof.
  split; [lia|]. split; [vm_compute; reflexivity|].
  apply (get_next_values_nonpositive (-4) (sample_world 10) 10);
    [lia | vm_compute; reflexivity].
Defined.

(** C3, amended. Calls that run one after the other consume consecutive
    ranges of the counter: with the sequence
    standing at [last], [get_next_values a] returns the values
    [last + 1 .. last + a] and leaves the sequence at [last + a]; a call
    [get_next_values b] after it returns [last + a + 1 .. last + a + b] and
    leaves the sequence at [last + a + b]. *)
Theorem get_next_values_consecutive_ranges (a b : Z) (w : world) (last : Z) :
  0 <= a ->
  0 <= b ->
  current_value w = Some last ->
  fst (get_next_values a w) = inr (tuple1 <$> seqZ (last + 1) a) /\
  current_value (snd (get_next_values a w)) = Some (last + a) /\
  fst (get_next_values b (snd (get_next_values a w))) =
    inr (tuple1 <$> seqZ (last + a + 1) b) /\
  current_value (snd (get_next_values b (snd (get_next_values a w)))) =
    Some (last + a + b).
Proof.
  intros Ha Hb Hcur. destruct (current_value_some _ _ Hcur) as (db & Hdb & Hseq).
  rewrite (get_next_values_ok _ _ _ _ Hdb Hseq). cbn [fst snd].
  set (db1 := after_next_values a last db).
  set (w1 := set_connection (db_for_write_alias w) db1 w).
  assert (Hdb1 : write_database w1 = Some db1)
    by apply write_database_set_connection.
  assert (Hseq1 : sequences db1 !! id_seq = Some (last + a)).
  { unfold db1. rewrite after_next_values_sequence. f_equal. lia. }
  rewrite (get_next_values_ok _ _ _ _ Hdb1 Hseq1). cbn [fst snd].
  split; [done|]. split.
  { unfold w1. by rewrite current_value_set_connection. }
  split; [done|].
  rewrite current_value_set_connection, after_next_values_sequence.
  f_equal. lia.
Qed.

(** The example of the spec: from a sequence at 10, three values and then
    two. *)
Lemma get_next_values_consecutive_ranges_witness :
  0 <= 3 /\ 0 <= 2 /\
  current_value (sample_world 10) = Some 10 /\
  fst (get_next_values 3 (sample_world 10)) = inr [[VInt 11]; [VInt 12]; [VInt 13]] /\
  current_value (snd (get_next_values 3 (sample_world 10))) = Some 13 /\
  fst (get_next_values 2 (snd (get_next_values 3 (sample_world 10)))) =
    inr [[VInt 14]; [VInt 15]] /\
  current_value (snd (get_next_values 2 (snd (get_next_values 3 (sample_world 10))))) =
    Some 15.
Proof.
  split; [lia|]. split; [lia|]. split; [vm_compute; reflexivity|].
  apply (get_next_values_consecutive_ranges 3 2 (sample_world 10) 10);
    [lia | lia | vm_compute; reflexivity].
Defined.

(** C9. Whatever [num] is, [get_next_values] succeeds exactly when the
    sequence can be reached, and what it returns is then the list of result
    rows as fetched: one one-element tuple per value drawn from the
    sequence, each wrapping that integer. *)
Theorem get_next_values_returns_tuples (num : Z) (w : world) :
  match fst (get_next_values num w), current_value w with
  | inr rows, Some last => rows = (fun v => [VInt v]) <$> seqZ (last + 1) num
  | inl _, None => True
  | _, _ => False
  end.
Proof.
  unfold current_value. destruct (write_database w) as [db|] eqn:Hdb.
  - destruct (sequences db !! id_seq) as [last|] eqn:Hseq.
    + by rewrite (get_next_values_ok _ _ _ _ Hdb Hseq).
    + by rewrite (get_next_values_no_sequence _ _ _ Hdb Hseq).
  - by rewrite (get_next_values_no_connection _ _ Hdb).
Qed.

(** C10. Whatever [num] is, [get_next_values] leaves the rows of the table
    as they were, on every connection; all the database it writes to sees
    is one more statement, the SELECT on the sequence. *)
Theorem get_next_values_leaves_table_unchanged (num : Z) (w : world) :
  (forall alias : string,
     table_rows <$> (connections (snd (get_next_values num w)) !! alias) =
     table_rows <$> (connections w !! alias)) /\
  (forall alias : string,
     statements <$> (connections (snd (get_next_values num w)) !! alias) =
     (fun db => if decide (alias = db_for_write_alias w)
                then next_values_sql num :: statements db
                else statements db) <$> (connections w !! alias)).
Proof.
  destruct (write_database w) as [db|] eqn:Hdb.
  - assert (Hw : exists db',
        snd (get_next_values num w) = set_connection (db_for_write_alias w) db' w /\
        table_rows db' = table_rows db /\
        statements db' = next_values_sql num :: statements db).
    { destruct (sequences db !! id_seq) as [last|] eqn:Hseq.
      - rewrite (get_next_values_ok _ _ _ _ Hdb Hseq). by eexists.
      - rewrite (get_next_values_no_sequence _ _ _ Hdb Hseq). by eexists. }
    destruct Hw as (db' & -> & Hrows & Hlog). unfold write_database in Hdb.
    split; intros alias; cbn [connections set_connection];
      destruct (decide (alias = db_for_write_alias w)) as [->|Hne].
    + rewrite lookup_insert_eq, Hdb. simpl. by f_equal.
    + by rewrite lookup_insert_ne.
    + rewrite lookup_insert_eq, Hdb. simpl. by f_equal.
    + rewrite lookup_insert_ne by done. by destruct (connections w !! alias).
  - rewrite (get_next_values_no_connection _ _ Hdb). cbn [snd].
    split; intros alias; [done|].
    destruct (decide (alias = db_for_write_alias w)) as [->|Hne].
    + unfold write_database in Hdb. by rewrite Hdb.
    + by destruct (connections w !! alias).
Qed.

(** ** Inserting and deleting, at the level of one database *)

Lemma insert_into_cases (new_id : option Z) (s : string) (t : Z) (db : database) :
  statements (snd (insert_into new_id s t db)) = statements db /\
  (sequences (snd (insert_into new_id s t db)) = sequences db \/
   exists last, sequences db !! id_seq = Some last /\
     sequences (snd (insert_into new_id s t db)) = <[id_seq := last + 1]> (sequences db)) /\
  match fst (insert_into new_id s t db) with
  | inl e => table_rows (snd (insert_into new_id s t db)) = table_rows db
  | inr rows =>
      exists i,
        rows = [[VInt i]] /\
        table_rows (snd (insert_into new_id s t db)) =
          table_rows db ++ [ {| id := i; string_ := s; date_added := t |} ] /\
        fits string_field s = true /\
        Forall (fun c => violated (table_rows db)
                           {| id := i; string_ := s; date_added := t |} c = false)
               table_constraints
  end.
Proof.
  destruct (insert_into new_id s t db) as [res db'] eqn:E. cbn [fst snd].
  unfold insert_into in E. destruct (fits string_field s) eqn:Hfit; cbn [negb] in E.
  2: { unfold raise in E. simplify_eq. by intuition. }
  destruct new_id as [i|].
  - unfold bind, ret, gets in E. cbn beta iota in E.
    destruct (List.find _ table_constraints) as [c|] eqn:Hfind.
    + unfold raise in E. simplify_eq. by intuition.
    + unfold modify in E. simplify_eq.
      cbn [set_table_rows statements sequences table_rows].
      split; [done|]. split; [by left|]. exists i. repeat split; try done.
      apply Forall_forall. intros c Hc. apply list_elem_of_In in Hc.
      apply (find_none _ _ Hfind c Hc).
  - unfold bind, nextval, ret, gets in E.
    destruct (sequences db !! id_seq) as [last|] eqn:Hseq.
    2: { simplify_eq. by intuition. }
    cbn beta iota in E. cbn [table_rows set_sequences] in E.
    destruct (List.find _ table_constraints) as [c|] eqn:Hfind.
    + unfold raise in E. simplify_eq. cbn [statements sequences table_rows].
      split; [done|]. split; [right; by exists last | done].
    + unfold modify in E. simplify_eq.
      cbn [set_table_rows statements sequences table_rows].
      split; [done|]. split; [right; by exists last|].
      exists (last + 1). repeat split; try done.
      apply Forall_forall. intros c Hc. apply list_elem_of_In in Hc.
      apply (find_none _ _ Hfind c Hc).
Qed.

Lemma column_string (r : MetricsKeyIndexer) : column "string" r = Some (VStr (string_ r)).
Proof. reflexivity. Qed.

Lemma column_id (r : MetricsKeyIndexer) : column "id" r = Some (VInt (id r)).
Proof. reflexivity. Qed.

(** A new row violates [unique_string] exactly when its string is already
    the string of a stored row. *)
Lemma violated_unique_string (rows : list MetricsKeyIndexer) (r : MetricsKeyIndexer) :
  violated rows r {| fields := ["string"]; name := "unique_string" |} = true <->
  string_ r ∈ string_ <$> rows.
Proof.
  assert (Hc : forall r', conflicts {| fields := ["string"]; name := "unique_string" |} r r'
                          = bool_decide (string_ r = string_ r')).
  { intros r'. unfold conflicts. cbn [fields forallb].
    rewrite !column_string, andb_true_r. apply bool_decide_ext. split; congruence. }
  unfold violated. rewrite existsb_exists, list_elem_of_fmap.
  split.
  - intros (r' & Hin & Hr'). exists r'. apply list_elem_of_In in Hin.
    rewrite Hc in Hr'. by apply bool_decide_eq_true in Hr'.
  - intros (r' & Heq & Hin). exists r'. apply list_elem_of_In in Hin.
    split; [done|]. rewrite Hc. by apply bool_decide_eq_true.
Qed.

Lemma unique_string_declared :
  {| fields := ["string"]; name := "unique_string" |} ∈ table_constraints.
Proof. unfold table_constraints, Meta.constraints. set_solver. Qed.

(** Inserting a string that is stored already is refused with an
    [IntegrityError], provided the insert gets as far as the check. *)
Lemma insert_into_conflict (new_id : option Z) (s : string) (t : Z) (db : database) :
  fits string_field s = true ->
  (new_id = None -> is_Some (sequences db !! id_seq)) ->
  s ∈ string_ <$> table_rows db ->
  exists c, c ∈ table_constraints /\
    fst (insert_into new_id s t db) = inl (IntegrityError (name c)).
Proof.
  intros Hfit Hseq Hin. unfold insert_into. rewrite Hfit. cbn [negb].
  assert (Hgen : forall i db1, table_rows db1 = table_rows db ->
    exists c, c ∈ table_constraints /\
      fst ((let* rows := gets table_rows in
            match List.find (violated rows {| id := i; string_ := s; date_added := t |})
                    table_constraints with
            | Some c => raise (IntegrityError (name c))
            | None =>
                let* _ := modify (set_table_rows
                            (fun l => l ++ [ {| id := i; string_ := s; date_added := t |} ])) in
                ret [[VInt i]]
            end) db1) = inl (IntegrityError (name c))).
  { intros i db1 Hrows. unfold bind, gets. cbn beta iota. rewrite Hrows.
    destruct (List.find _ table_constraints) as [c|] eqn:Hfind.
    - exists c. split; [|done]. apply find_some in Hfind as [Hc _].
      by apply list_elem_of_In.
    - exfalso.
      pose proof (find_none _ _ Hfind _
        (proj1 (list_elem_of_In _ _) unique_string_declared)) as Hno.
      cbn beta in Hno.
      assert (Hyes : violated (table_rows db) {| id := i; string_ := s; date_added := t |}
                {| fields := ["string"]; name := "unique_string" |} = true)
        by (by apply violated_unique_string).
      congruence. }
  destruct new_id as [i|].
  - unfold bind at 1, ret at 1. by apply Hgen.
  - destruct (Hseq eq_refl) as [last Hlast].
    unfold bind at 1. rewrite (nextval_some _ _ _ Hlast). by apply Hgen.
Qed.

Lemma delete_from_eq (pk : Z) (db : database) :
  delete_from pk db =
    (inr [], set_table_rows (List.filter (fun r => negb (bool_decide (id r = pk)))) db).
Proof. reflexivity. Qed.

Lemma execute_insert_into (new_id : option Z) (s : string) (t : Z) (db : database) :
  execute_statement (InsertInto Meta.db_table new_id s t) db =
    insert_into new_id s t (log_statement (InsertInto Meta.db_table new_id s t) db).
Proof.
  unfold execute_statement, bind, modify. by rewrite decide_True.
Qed.

Lemma execute_delete_from (pk : Z) (db : database) :
  execute_statement (DeleteFrom Meta.db_table pk) db =
    delete_from pk (log_statement (DeleteFrom Meta.db_table pk) db).
Proof.
  unfold execute_statement, bind, modify. by rewrite decide_True.
Qed.

(** ** create and delete, case by case *)

Lemma create_on_database (new_id : option Z) (s : string) (date : option Z)
    (w : world) (db : database) :
  write_database w = Some db ->
  create new_id s date w =
    (let t := match date with Some t => t | None => clock w end in
     let x := insert_into new_id s t
                (log_statement (InsertInto Meta.db_table new_id s t) db) in
     (match fst x with
      | inl e => inl e
      | inr ([VInt i] :: _) => inr {| id := i; string_ := s; date_added := t |}
      | inr _ => inl (ProgrammingError "no results to fetch")
      end,
      set_connection (db_for_write_alias w) (snd x) w)).
Proof.
  intros Hdb. unfold write_database in Hdb.
  unfold create, execute, on_connection, connections_cursor, db_for_write, fetchall,
    get_default, date_added_field, timezone_now.
  destruct date as [t|]; unfold bind, gets, ret; rewrite Hdb; cbn [cursor_alias];
    rewrite Hdb, execute_insert_into; cbn zeta;
    match goal with |- context [insert_into ?a ?b ?c ?d] =>
      destruct (insert_into a b c d) as [[e|rows] db'] end;
    cbn [fst snd result_set]; try done;
    by repeat (match goal with |- context [match ?l with _ => _ end] => destruct l end).
Qed.

Lemma create_no_connection (new_id : option Z) (s : string) (date : option Z) (w : world) :
  write_database w = None ->
  create new_id s date w = (inl (ConnectionDoesNotExist (db_for_write_alias w)), w).
Proof.
  intros Hdb. unfold write_database in Hdb.
  unfold create, connections_cursor, db_for_write, get_default, date_added_field,
    timezone_now.
  destruct date as [t|]; unfold bind, gets, ret; by rewrite Hdb.
Qed.

Lemma delete_on_database (pk : Z) (w : world) (db : database) :
  write_database w = Some db ->
  delete pk w =
    (inr tt,
     set_connection (db_for_write_alias w)
       (set_table_rows (List.filter (fun r => negb (bool_decide (id r = pk))))
          (log_statement (DeleteFrom Meta.db_table pk) db)) w).
Proof.
  intros Hdb. unfold write_database in Hdb.
  unfold delete, execute, on_connection, connections_cursor, db_for_write, bind, gets, ret.
  rewrite Hdb. cbn [cursor_alias]. by rewrite Hdb, execute_delete_from, delete_from_eq.
Qed.

Lemma delete_no_connection (pk : Z) (w : world) :
  write_database w = None ->
  delete pk w = (inl (ConnectionDoesNotExist (db_for_write_alias w)), w).
Proof.
  intros Hdb. unfold write_database in Hdb.
  unfold delete, connections_cursor, db_for_write, bind, gets. by rewrite Hdb.
Qed.

(** ** One call of a history *)

Lemma answer_snd {A : Type} (f : A -> reply) (x : (error + A) * world) :
  snd (answer f x) = snd x.
Proof. by destruct x as [[e|a] w]. Qed.

Lemma answer_fst {A : Type} (f : A -> reply) (x : (error + A) * world) :
  fst (answer f x) = match fst x with inl e => Raised e | inr a => f a end.
Proof. by destruct x as [[e|a] w]. Qed.

Lemma perform_no_connection (c : call) (w : world) :
  write_database w = None ->
  perform c w = (Raised (ConnectionDoesNotExist (db_for_write_alias w)), w).
Proof.
  intros Hdb. destruct c as [num|new_id s date|pk]; unfold perform.
  - by rewrite get_next_values_no_connection.
  - by rewrite create_no_connection.
  - by rewrite delete_no_connection.
Qed.

Lemma perform_on_database (c : call) (w : world) (db : database) :
  write_database w = Some db ->
  exists db',
    snd (perform c w) = set_connection (db_for_write_alias w) db' w /\
    sequence_not_behind db db' /\
    rows_between db db' (fst (perform c w)) /\
    table_step db db'.
Proof.
  intros Hdb. destruct c as [num|new_id s date|pk]; unfold perform;
    rewrite answer_snd, answer_fst.
  - destruct (sequences db !! id_seq) as [last|] eqn:Hseq.
    + rewrite (get_next_values_ok _ _ _ _ Hdb Hseq). cbn [fst snd].
      exists (after_next_values num last db).
      pose proof (after_next_values_sequence num last db) as Hafter.
      split; [done|]. split; [|split].
      * unfold sequence_not_behind. rewrite Hseq, Hafter. lia.
      * exists last, (last + Z.max 0 num), (seqZ (last + 1) num).
        repeat split; try done; [apply seqZ_sorted|].
        apply Forall_forall. intros v Hv. apply elem_of_seqZ in Hv. lia.
      * by left.
    + rewrite (get_next_values_no_sequence _ _ _ Hdb Hseq). cbn [fst snd].
      eexists. split; [done|]. split; [|split]; [|done|by left].
      unfold sequence_not_behind. cbn [log_statement sequences]. by rewrite Hseq.
  - rewrite (create_on_database _ _ _ _ _ Hdb). cbn zeta. cbn [fst snd].
    set (t := match date with Some t => t | None => clock w end).
    set (db0 := log_statement (InsertInto Meta.db_table new_id s t) db).
    destruct (insert_into_cases new_id s t db0) as (Hlog & Hsq & Hres).
    exists (snd (insert_into new_id s t db0)).
    split; [done|]. split; [|split].
    + unfold sequence_not_behind.
      destruct Hsq as [->|(last & Hlast & ->)]; cbn [db0 log_statement sequences] in *.
      * by destruct (sequences db !! id_seq).
      * rewrite Hlast, lookup_insert_eq. lia.
    + destruct (fst (insert_into new_id s t db0)) as [e|rows]; [done|].
      by repeat (match goal with |- context [match ?l with _ => _ end] => destruct l end).
    + destruct (fst (insert_into new_id s t db0)) as [e|rows].
      * by left.
      * destruct Hres as (i & _ & Hrows & Hfit & Hcs). right. right.
        by exists {| id := i; string_ := s; date_added := t |}.
  - rewrite (delete_on_database _ _ _ Hdb). cbn [fst snd].
    eexists. split; [done|]. split; [|split]; [|done|].
    + unfold sequence_not_behind. cbn [set_table_rows log_statement sequences].
      by destruct (sequences db !! id_seq).
    + right. left. by exists pk.
Qed.

(** ** Histories *)

Lemma run_cons (c : call) (cs : list call) (w : world) :
  run (c :: cs) w =
    (fst (perform c w) :: fst (run cs (snd (perform c w))),
     snd (run cs (snd (perform c w)))).
Proof.
  cbn [run]. destruct (perform c w) as [r w1]. cbn [fst snd].
  by destruct (run cs w1) as [rs w2].
Qed.

Lemma returned_rows_cons (r : reply) (rs : list reply) :
  returned_rows (r :: rs) =
    match r with Rows rows => rows | _ => [] end ++ returned_rows rs.
Proof. reflexivity. Qed.

(** The rows a history returns wrap integers in strictly ascending order,
    all of them above the place where the sequence stood at the start. *)
Lemma run_returned_ascending (cs : list call) (w : world) :
  exists vs : list Z,
    returned_rows (fst (run cs w)) = tuple1 <$> vs /\
    StronglySorted Z.lt vs /\
    match current_value w with
    | Some last => Forall (fun v => last < v) vs
    | None => vs = []
    end.
Proof.
  revert w. induction cs as [|c cs IH]; intros w.
  { exists []. repeat split; [constructor|]. by destruct (current_value w). }
  rewrite run_cons. cbn [fst]. rewrite returned_rows_cons.
  unfold current_value. destruct (write_database w) as [db|] eqn:Hdb.
  - destruct (perform_on_database c w db Hdb) as (db' & Hw & Hsq & Hrows & _).
    destruct (IH (snd (perform c w))) as (vs1 & Hret & Hsorted & Habove).
    rewrite Hw, current_value_set_connection in Habove. rewrite Hret.
    unfold sequence_not_behind in Hsq.
    destruct (fst (perform c w)) as [rows| | |] eqn:Hreply.
    + destruct Hrows as (last & last' & vs0 & Hlast & Hlast' & -> & Hs0 & Hin0).
      rewrite Hlast. rewrite Hlast' in Habove.
      rewrite Forall_forall in Hin0, Habove.
      exists (vs0 ++ vs1). rewrite fmap_app. split; [done|]. split.
      * apply StronglySorted_app_2; [|done..].
        intros x1 x2 H1 H2. specialize (Hin0 _ H1). specialize (Habove _ H2). lia.
      * apply Forall_forall. intros v Hv. apply elem_of_app in Hv as [Hv|Hv].
        -- specialize (Hin0 _ Hv). lia.
        -- rewrite Hlast, Hlast' in Hsq. specialize (Habove _ Hv). lia.
    + exists vs1. split; [done|]. split; [done|].
      destruct (sequences db !! id_seq) as [last|],
               (sequences db' !! id_seq) as [last'|]; try done.
      eapply Forall_impl; [exact Habove|]. intros v Hv. cbn beta in Hv. lia.
    + exists vs1. split; [done|]. split; [done|].
      destruct (sequences db !! id_seq) as [last|],
               (sequences db' !! id_seq) as [last'|]; try done.
      eapply Forall_impl; [exact Habove|]. intros v Hv. cbn beta in Hv. lia.
    + exists vs1. split; [done|]. split; [done|].
      destruct (sequences db !! id_seq) as [last|],
               (sequences db' !! id_seq) as [last'|]; try done.
      eapply Forall_impl; [exact Habove|]. intros v Hv. cbn beta in Hv. lia.
  - rewrite (perform_no_connection c w Hdb). cbn [fst snd].
    destruct (IH w) as (vs1 & Hret & Hsorted & Habove).
    unfold current_value in Habove. rewrite Hdb in Habove.
    exists vs1. by rewrite Hret.
Qed.

Lemma strictly_ascending_NoDup (vs : list Z) : StronglySorted Z.lt vs -> NoDup vs.
Proof.
  induction 1 as [|v vs Hs IH Hall]; constructor; [|done].
  intros Hin. rewrite Forall_forall in Hall. specialize (Hall _ Hin). lia.
Qed.

(** C4. In any history of calls on the model (reservations, inserts with
    or without an explicit [id], deletions), no row that a
    [get_next_values] call returns is returned a second time, by the same
    call or by any other: the values are never reused, whatever the table
    holds and whatever was deleted from it. *)
Theorem get_next_values_never_reuses (cs : list call) (w : world) :
  NoDup (returned_rows (fst (run cs w))).
Proof.
  destruct (run_returned_ascending cs w) as (vs & -> & Hsorted & _).
  apply (NoDup_fmap_2 _ (Inj0 := tuple1_inj)). by apply strictly_ascending_NoDup.
Qed.

(** ** Invariants of the table *)

Lemma perform_every_table (P : list MetricsKeyIndexer -> Prop) (c : call) (w : world) :
  (forall db db', table_step db db' -> P (table_rows db) -> P (table_rows db')) ->
  every_table P w ->
  every_table P (snd (perform c w)).
Proof.
  intros Hstep Hw. destruct (write_database w) as [db|] eqn:Hdb.
  - destruct (perform_on_database c w db Hdb) as (db' & -> & _ & _ & Hrows).
    intros alias d Hd. cbn [set_connection connections] in Hd.
    apply lookup_insert_Some in Hd as [[_ <-]|[_ Hd]].
    + apply (Hstep db db' Hrows). by apply (Hw (db_for_write_alias w)).
    + by apply (Hw alias).
  - by rewrite (perform_no_connection c w Hdb).
Qed.

Lemma run_every_table (P : list MetricsKeyIndexer -> Prop) (cs : list call) (w : world) :
  (forall db db', table_step db db' -> P (table_rows db) -> P (table_rows db')) ->
  every_table P w ->
  every_table P (snd (run cs w)).
Proof.
  intros Hstep. revert w. induction cs as [|c cs IH]; intros w Hw; [done|].
  rewrite run_cons. cbn [snd]. apply IH. by apply perform_every_table.
Qed.

Lemma elem_of_fmap_filter {B : Type} (g : MetricsKeyIndexer -> B)
    (f : MetricsKeyIndexer -> bool) (rows : list MetricsKeyIndexer) (y : B) :
  y ∈ g <$> List.filter f rows -> y ∈ g <$> rows.
Proof.
  rewrite !list_elem_of_fmap. intros (r & -> & Hr). exists r. split; [done|].
  apply list_elem_of_In in Hr. apply filter_In in Hr as [Hr _].
  by apply list_elem_of_In.
Qed.

Lemma NoDup_fmap_filter {B : Type} (g : MetricsKeyIndexer -> B)
    (f : MetricsKeyIndexer -> bool) (rows : list MetricsKeyIndexer) :
  NoDup (g <$> rows) -> NoDup (g <$> List.filter f rows).
Proof.
  induction rows as [|r rows IH]; [done|].
  rewrite fmap_cons, NoDup_cons. intros [Hr Hrows]. cbn [List.filter].
  destruct (f r); [|by apply IH].
  rewrite fmap_cons, NoDup_cons. split; [|by apply IH].
  intros Hin. apply Hr. by apply elem_of_fmap_filter in Hin.
Qed.

Lemma table_step_unique_strings (db db' : database) :
  table_step db db' ->
  NoDup (string_ <$> table_rows db) ->
  NoDup (string_ <$> table_rows db').
Proof.
  intros [->|[[pk ->]|(r & -> & _ & Hcs)]] Hnodup; [done|by apply NoDup_fmap_filter|].
  rewrite fmap_app. apply NoDup_app. split; [done|]. split; [|apply NoDup_singleton].
  intros x Hx Hx'. apply list_elem_of_singleton in Hx'. subst x.
  rewrite Forall_forall in Hcs. specialize (Hcs _ unique_string_declared).
  apply violated_unique_string in Hx. congruence.
Qed.

Lemma table_step_bounded_strings (db db' : database) :
  table_step db db' ->
  Forall (fun r => (String.length (string_ r) <= 200)%nat) (table_rows db) ->
  Forall (fun r => (String.length (string_ r) <= 200)%nat) (table_rows db').
Proof.
  intros [->|[[pk ->]|(r & -> & Hfit & _)]] Hall; [done| |].
  - apply Forall_forall. intros r Hr. rewrite Forall_forall in Hall. apply Hall.
    apply list_elem_of_In in Hr. apply filter_In in Hr as [Hr _].
    by apply list_elem_of_In.
  - apply Forall_app. split; [done|]. apply Forall_singleton.
    unfold fits, string_field in Hfit. by apply bool_decide_eq_true in Hfit.
Qed.

Lemma insert_into_auto_needs_sequence (s : string) (t : Z) (db : database) :
  sequences db !! id_seq = None ->
  exists e, fst (insert_into None s t db) = inl e.
Proof.
  intros Hseq. unfold insert_into. destruct (fits string_field s); cbn [negb].
  - unfold bind at 1. rewrite (nextval_none _ _ Hseq). by eexists.
  - by eexists.
Qed.

(** After a row with string [s] has been created, creating another one with
    the same string is refused with an [IntegrityError], if it would have
    gone through before. *)
Lemma create_same_string_again (w : world) (s : string) (i1 i2 d1 d2 : option Z)
    (r1 r2 : MetricsKeyIndexer) :
  fst (create i1 s d1 w) = inr r1 ->
  fst (create i2 s d2 w) = inr r2 ->
  exists c, c ∈ table_constraints /\
    fst (create i2 s d2 (snd (create i1 s d1 w))) = inl (IntegrityError (name c)).
Proof.
  intros H1 H2. destruct (write_database w) as [db|] eqn:Hdb.
  2: { by rewrite (create_no_connection _ _ _ _ Hdb) in H1. }
  rewrite (create_on_database i1 _ _ _ _ Hdb) in H1 |- *.
  rewrite (create_on_database i2 _ _ _ _ Hdb) in H2.
  cbn zeta in H1, H2 |- *. cbn [fst snd] in H1, H2 |- *.
  set (t1 := match d1 with Some t => t | None => clock w end) in *.
  set (q1 := InsertInto Meta.db_table i1 s t1) in *.
  set (x1 := insert_into i1 s t1 (log_statement q1 db)) in *.
  rewrite (create_on_database _ _ _ _ (snd x1)) by apply write_database_set_connection.
  cbn zeta. cbn [fst snd set_connection clock].
  set (t2 := match d2 with Some t => t | None => clock w end) in *.
  set (q2 := InsertInto Meta.db_table i2 s t2) in *.
  destruct (insert_into_cases i1 s t1 (log_statement q1 db)) as (_ & Hsq1 & Hres1).
  fold x1 in Hsq1, Hres1.
  destruct (fst x1) as [e1|rows1]; [done|].
  destruct Hres1 as (i & _ & Hrows & Hfit & _).
  destruct (insert_into_conflict i2 s t2 (log_statement q2 (snd x1))) as (c & Hc & Herr).
  - done.
  - intros ->. cbn [log_statement sequences].
    destruct (sequences db !! id_seq) as [last|] eqn:Hseq.
    + destruct Hsq1 as [->|(last1 & _ & ->)]; cbn [log_statement sequences].
      * by rewrite Hseq.
      * by rewrite lookup_insert_eq.
    + destruct (insert_into_auto_needs_sequence s t2 (log_statement q2 db) Hseq) as [e He].
      by rewrite He in H2.
  - cbn [log_statement table_rows]. rewrite Hrows, fmap_app, elem_of_app. right.
    cbn. by apply list_elem_of_singleton.
  - exists c. split; [done|]. by rewrite Herr.
Qed.

Lemma sample_world_tables (P : list MetricsKeyIndexer -> Prop) (last : Z) :
  P [] -> every_table P (sample_world last).
Proof.
  intros HP alias db Hdb. cbn [sample_world connections] in Hdb.
  apply lookup_singleton_Some in Hdb as [_ <-]. exact HP.
Qed.

(** A string of more than 200 characters is refused. *)
Lemma create_string_too_long (new_id : option Z) (s : string) (date : option Z)
    (w : world) (db : database) :
  write_database w = Some db ->
  (200 < String.length s)%nat ->
  fst (create new_id s date w) = inl (DataError "string").
Proof.
  intros Hdb Hlen. rewrite (create_on_database _ _ _ _ _ Hdb). cbn zeta. cbn [fst].
  unfold insert_into, fits, string_field.
  rewrite bool_decide_eq_false_2 by lia. reflexivity.
Qed.

(** ** The claims about the table *)

(** C5. The table declares one uniqueness constraint of its own, on the
    column [string] and named [unique_string], and it is enforced: if no
    two rows share a string, then after any history of calls no two rows
    share a string; and of two inserts with the same string, each of which
    would succeed on its own, the one that comes second is refused with an
    [IntegrityError] naming a constraint of the table, in either order. *)
Theorem unique_string_enforced (w : world) :
  every_table (fun rows => NoDup (string_ <$> rows)) w ->
  Meta.constraints = [ {| fields := ["string"]; name := "unique_string" |} ] /\
  (forall cs : list call,
     every_table (fun rows => NoDup (string_ <$> rows)) (snd (run cs w))) /\
  (forall (s : string) (i1 i2 d1 d2 : option Z) (r1 r2 : MetricsKeyIndexer),
     fst (create i1 s d1 w) = inr r1 ->
     fst (create i2 s d2 w) = inr r2 ->
     (exists c, c ∈ table_constraints /\
        fst (create i2 s d2 (snd (create i1 s d1 w))) = inl (IntegrityError (name c))) /\
     (exists c, c ∈ table_constraints /\
        fst (create i1 s d1 (snd (create i2 s d2 w))) = inl (IntegrityError (name c)))).
Proof.
  intros Hw. split; [done|]. split.
  - intros cs. apply run_every_table; [|done]. apply table_step_unique_strings.
  - intros s i1 i2 d1 d2 r1 r2 H1 H2. split.
    + by apply (create_same_string_again w s i1 i2 d1 d2 r1 r2).
    + by apply (create_same_string_again w s i2 i1 d2 d1 r2 r1).
Qed.

Lemma unique_string_enforced_witness :
  every_table (fun rows => NoDup (string_ <$> rows)) (sample_world 10) /\
  every_table (fun rows => NoDup (string_ <$> rows))
    (snd (run [Create None "metric" None; Create (Some 40) "metric" None; Delete 11]
            (sample_world 10))) /\
  fst (create None "metric" None (sample_world 10)) =
    inr {| id := 11; string_ := "metric"; date_added := 1600000000 |} /\
  fst (create (Some 40) "metric" (Some 7) (sample_world 10)) =
    inr {| id := 40; string_ := "metric"; date_added := 7 |} /\
  (exists c, c ∈ table_constraints /\
     fst (create (Some 40) "metric" (Some 7)
            (snd (create None "metric" None (sample_world 10)))) =
       inl (IntegrityError (name c))) /\
  (exists c, c ∈ table_constraints /\
     fst (create None "metric" None
            (snd (create (Some 40) "metric" (Some 7) (sample_world 10)))) =
       inl (IntegrityError (name c))).
Proof.
  assert (H0 : every_table (fun rows => NoDup (string_ <$> rows)) (sample_world 10))
    by (apply sample_world_tables; constructor).
  destruct (unique_string_enforced (sample_world 10) H0) as (_ & Hinv & Htwo).
  split; [exact H0|]. split; [apply Hinv|].
  split; [vm_compute; reflexivity|]. split; [vm_compute; reflexivity|].
  apply (Htwo "metric" None (Some 40) None (Some 7)
           {| id := 11; string_ := "metric"; date_added := 1600000000 |}
           {| id := 40; string_ := "metric"; date_added := 7 |});
    vm_compute; reflexivity.
Defined.

(** C7. The strings stored in the table have at most 200 characters: if
    that holds of every row, it holds of every row after any history of
    calls. *)
Theorem string_at_most_200_characters (cs : list call) (w : world) :
  every_table (Forall (fun r => (String.length (string_ r) <= 200)%nat)) w ->
  every_table (Forall (fun r => (String.length (string_ r) <= 200)%nat)) (snd (run cs w)).
Proof.
  intros Hw. apply run_every_table; [|done]. apply table_step_bounded_strings.
Qed.

Lemma string_at_most_200_characters_witness :
  every_table (Forall (fun r => (String.length (string_ r) <= 200)%nat)) (sample_world 10) /\
  every_table (Forall (fun r => (String.length (string_ r) <= 200)%nat))
    (snd (run [Create None "metric" None; GetNextValues 2; Create (Some 3) "tag" (Some 5)]
            (sample_world 10))).
Proof.
  assert (H0 : every_table (Forall (fun r => (String.length (string_ r) <= 200)%nat))
                 (sample_world 10))
    by (apply sample_world_tables; constructor).
  split; [exact H0|].
  exact (string_at_most_200_characters _ (sample_world 10) H0).
Defined.

(** C8. A row created without a [date_added] gets the time of the clock at
    its creation (and one created with a [date_added] keeps it); the row is
    stored, last in the table, with that time. *)
Theorem date_added_defaults_to_now (new_id : option Z) (s : string) (date : option Z)
    (w : world) (r : MetricsKeyIndexer) :
  fst (create new_id s date w) = inr r ->
  date_added r = match date with Some t => t | None => clock w end /\
  string_ r = s /\
  exists db db',
    write_database w = Some db /\
    write_database (snd (create new_id s date w)) = Some db' /\
    table_rows db' = table_rows db ++ [r].
Proof.
  intros Hr. destruct (write_database w) as [db|] eqn:Hdb.
  2: { by rewrite (create_no_connection _ _ _ _ Hdb) in Hr. }
  rewrite (create_on_database _ _ _ _ _ Hdb) in Hr |- *.
  cbn zeta in Hr |- *. cbn [fst snd] in Hr |- *.
  set (t := match date with Some t => t | None => clock w end) in *.
  set (db0 := log_statement (InsertInto Meta.db_table new_id s t) db) in *.
  destruct (insert_into_cases new_id s t db0) as (_ & _ & Hres).
  destruct (fst (insert_into new_id s t db0)) as [e|rows]; [done|].
  destruct Hres as (i & -> & Hrows & _). simplify_eq. cbn [date_added string_].
  split; [done|]. split; [done|].
  exists db, (snd (insert_into new_id s t db0)).
  split; [done|]. split; [apply write_database_set_connection | exact Hrows].
Qed.

Lemma date_added_defaults_to_now_witness :
  fst (create None "metric" None (sample_world 10)) =
    inr {| id := 11; string_ := "metric"; date_added := 1600000000 |} /\
  date_added {| id := 11; string_ := "metric"; date_added := 1600000000 |} =
    clock (sample_world 10) /\
  string_ {| id := 11; string_ := "metric"; date_added := 1600000000 |} = "metric" /\
  exists db db',
    write_database (sample_world 10) = Some db /\
    write_database (snd (create None "metric" None (sample_world 10))) = Some db' /\
    table_rows db' =
      table_rows db ++ [ {| id := 11; string_ := "metric"; date_added := 1600000000 |} ].
Proof.
  assert (H : fst (create None "metric" None (sample_world 10)) =
              inr {| id := 11; string_ := "metric"; date_added := 1600000000 |})
    by (vm_compute; reflexivity).
  split; [exact H|].
  exact (date_added_defaults_to_now None "metric" None (sample_world 10) _ H).
Defined.

(** ** Two calls at the same time *)

Lemma sessions_apart_sym (na nb : nat) (a b : session) (db : database) :
  sessions_apart na nb a b db -> sessions_apart nb na b a db.
Proof.
  intros (Ha & Hb & last & va & vb & Hseq & Hfa & Hfb & Hna & Hnb & Hdisj & Hle).
  split; [done|]. split; [done|]. exists last, vb, va.
  repeat split; try done.
  - intros x Hx Hx'. by apply (Hdisj x).
  - intros x Hx. apply Hle. rewrite elem_of_app in Hx |- *. tauto.
Qed.

Lemma session_step_apart (na nb : nat) (a b : session) (db : database) :
  sessions_apart na nb a b db ->
  sessions_apart na nb (fst (session_step a db)) b (snd (session_step a db)).
Proof.
  intros (Ha & Hb & last & va & vb & Hseq & Hfa & Hfb & Hna & Hnb & Hdisj & Hle).
  unfold session_step. destruct (pending a) as [|x rest] eqn:Hpend.
  { cbn [fst snd]. split; [done|]. split; [done|]. exists last, va, vb.
    by rewrite Hpend. }
  rewrite Ha. cbn [eval_expr]. unfold bind, ret.
  rewrite (nextval_some _ _ _ Hseq). cbn [fst snd].
  split; [done|]. split; [done|]. exists (last + 1), (va ++ [last + 1]), vb.
  cbn [target pending fetched set_sequences sequences].
  split; [apply lookup_insert_eq|]. split; [by rewrite Hfa, fmap_app|].
  split; [done|]. split; [rewrite length_app; cbn [length] in *; lia|].
  split; [done|]. split.
  - intros y Hy Hy'. apply elem_of_app in Hy as [Hy|Hy]; [by apply (Hdisj y)|].
    apply list_elem_of_singleton in Hy. subst y.
    assert (last + 1 <= last) by (apply Hle; apply elem_of_app; by right). lia.
  - intros y Hy. rewrite <- (assoc_L (++)) in Hy.
    apply elem_of_app in Hy as [Hy|Hy].
    + assert (y <= last) by (apply Hle; apply elem_of_app; by left). lia.
    + apply elem_of_app in Hy as [Hy|Hy].
      * apply list_elem_of_singleton in Hy. lia.
      * assert (y <= last) by (apply Hle; apply elem_of_app; by right). lia.
Qed.

Lemma session_finish_apart (na nb : nat) (a b : session) (db : database) :
  sessions_apart na nb a b db ->
  sessions_apart na nb (fst (session_finish a db)) b (snd (session_finish a db)) /\
  pending (fst (session_finish a db)) = [].
Proof.
  intros (Ha & Hb & last & va & vb & Hseq & Hfa & Hfb & Hna & Hnb & Hdisj & Hle).
  unfold session_finish. rewrite Ha, (select_rows_nextval _ _ _ _ Hseq).
  cbn [fst snd pending]. split; [|done].
  split; [done|]. split; [done|].
  set (n := Z.of_nat (length (pending a))).
  exists (last + n), (va ++ seqZ (last + 1) n), vb.
  cbn [target pending fetched set_sequences sequences].
  split; [apply lookup_insert_eq|]. split; [by rewrite Hfa, fmap_app|].
  split; [done|]. split; [rewrite length_app, length_seqZ; cbn [length]; lia|].
  split; [done|]. split.
  - intros y Hy Hy'. apply elem_of_app in Hy as [Hy|Hy]; [by apply (Hdisj y)|].
    apply elem_of_seqZ in Hy.
    assert (y <= last) by (apply Hle; apply elem_of_app; by right). lia.
  - intros y Hy. rewrite <- (assoc_L (++)) in Hy.
    apply elem_of_app in Hy as [Hy|Hy].
    + assert (y <= last) by (apply Hle; apply elem_of_app; by left). lia.
    + apply elem_of_app in Hy as [Hy|Hy].
      * apply elem_of_seqZ in Hy. lia.
      * assert (y <= last) by (apply Hle; apply elem_of_app; by right). lia.
Qed.

Lemma interleave_apart (schedule : list bool) (na nb : nat) (a b : session) (db : database) :
  sessions_apart na nb a b db ->
  sessions_apart na nb (fst (fst (interleave schedule a b db)))
    (snd (fst (interleave schedule a b db))) (snd (interleave schedule a b db)) /\
  pending (fst (fst (interleave schedule a b db))) = [] /\
  pending (snd (fst (interleave schedule a b db))) = [].
Proof.
  revert a b db. induction schedule as [|turn rest IH]; intros a b db Hinv.
  - cbn [interleave].
    destruct (session_finish_apart _ _ _ _ _ Hinv) as [H1 Hp1].
    destruct (session_finish a db) as [a' db1]. cbn [fst snd] in H1, Hp1.
    destruct (session_finish_apart _ _ _ _ _ (sessions_apart_sym _ _ _ _ _ H1)) as [H2 Hp2].
    destruct (session_finish b db1) as [b' db2]. cbn [fst snd] in H2, Hp2 |- *.
    split; [by apply sessions_apart_sym|done].
  - destruct turn; cbn [interleave].
    + pose proof (session_step_apart _ _ _ _ _ Hinv) as H1.
      destruct (session_step a db) as [a' db']. by apply IH.
    + pose proof (session_step_apart _ _ _ _ _ (sessions_apart_sym _ _ _ _ _ Hinv)) as H1.
      destruct (session_step b db) as [b' db']. apply IH. by apply sessions_apart_sym.
Qed.

Lemma begin_next_values_apart (a b : Z) (db : database) (last : Z) :
  sequences db !! id_seq = Some last ->
  sessions_apart (Z.to_nat a) (Z.to_nat b)
    (begin (next_values_sql a)) (begin (next_values_sql b)) db.
Proof.
  intros Hseq. split; [done|]. split; [done|]. exists last, [], [].
  cbn [begin next_values_sql pending fetched length].
  unfold generate_series. rewrite !length_seqZ.
  repeat split; try done; try lia.
  - intros x Hx. by apply elem_of_nil in Hx.
  - intros x Hx. by apply elem_of_nil in Hx.
Qed.

Lemma concurrent_statements_ok (schedule : list bool) (a b : Z) (db : database) (last : Z) :
  sequences db !! id_seq = Some last ->
  exists (va vb : list Z) (db' : database),
    concurrent_statements schedule (next_values_sql a) (next_values_sql b) db =
      (inr (tuple1 <$> va, tuple1 <$> vb), db') /\
    length va = Z.to_nat a /\
    length vb = Z.to_nat b /\
    (forall x, x ∈ va -> x ∈ vb -> False).
Proof.
  intros Hseq. unfold concurrent_statements, bind, modify, resolve.
  cbn [begin next_values_sql target log_statement sequences]. rewrite Hseq.
  set (db2 := log_statement _ (log_statement _ db)).
  assert (Hseq2 : sequences db2 !! id_seq = Some last) by done.
  rewrite Hseq2. cbn beta iota.
  destruct (interleave_apart schedule _ _ _ _ db2
              (begin_next_values_apart a b db2 last Hseq2)) as (Hinv & Hpa & Hpb).
  cbn [begin next_values_sql] in Hinv, Hpa, Hpb.
  destruct (interleave schedule _ _ db2) as [[sa sb] db'].
  cbn [fst snd] in Hinv, Hpa, Hpb.
  destruct Hinv as (_ & _ & last' & va & vb & _ & Hfa & Hfb & Hna & Hnb & Hdisj & _).
  exists va, vb, db'. rewrite Hfa, Hfb. rewrite Hpa in Hna. rewrite Hpb in Hnb.
  cbn [length] in Hna, Hnb. repeat split; try done; lia.
Qed.

Lemma concurrent_get_next_values_on_database (schedule : list bool) (a b : Z)
    (w : world) (db : database) :
  write_database w = Some db ->
  concurrent_get_next_values schedule a b w =
    (fst (concurrent_statements schedule (next_values_sql a) (next_values_sql b) db),
     set_connection (db_for_write_alias w)
       (snd (concurrent_statements schedule (next_values_sql a) (next_values_sql b) db)) w).
Proof.
  intros Hdb. unfold write_database in Hdb.
  unfold concurrent_get_next_values, on_connection, connections_cursor,
    db_for_write, bind, gets.
  rewrite Hdb. cbn beta iota. rewrite Hdb.
  by destruct (concurrent_statements _ _ _ db).
Qed.

Lemma concurrent_get_next_values_no_connection (schedule : list bool) (a b : Z) (w : world) :
  write_database w = None ->
  concurrent_get_next_values schedule a b w =
    (inl (ConnectionDoesNotExist (db_for_write_alias w)), w).
Proof.
  intros Hdb. unfold write_database in Hdb.
  unfold concurrent_get_next_values, connections_cursor, db_for_write, bind, gets.
  by rewrite Hdb.
Qed.

(** C6. Two [get_next_values] calls that run at the same time on a store
    whose sequence can be reached both return, each the number of rows it
    asked for, and no row of one is a row of the other, however the store
    interleaves the two statements. *)
Theorem concurrent_get_next_values_disjoint (schedule : list bool) (a b : Z) (w : world) :
  match fst (concurrent_get_next_values schedule a b w), current_value w with
  | inr (rows_a, rows_b), Some _ =>
      length rows_a = Z.to_nat a /\
      length rows_b = Z.to_nat b /\
      forall r : row, r ∈ rows_a -> r ∈ rows_b -> False
  | inl _, None => True
  | _, _ => False
  end.
Proof.
  unfold current_value. destruct (write_database w) as [db|] eqn:Hdb.
  2: { by rewrite (concurrent_get_next_values_no_connection _ _ _ _ Hdb). }
  rewrite (concurrent_get_next_values_on_database _ _ _ _ _ Hdb). cbn [fst].
  destruct (sequences db !! id_seq) as [last|] eqn:Hseq.
  - destruct (concurrent_statements_ok schedule a b db last Hseq)
      as (va & vb & db' & -> & Hna & Hnb & Hdisj).
    cbn [fst]. rewrite !length_fmap. split; [done|]. split; [done|].
    intros r Hra Hrb. apply list_elem_of_fmap in Hra as (x & -> & Hx).
    apply list_elem_of_fmap in Hrb as (y & Hxy & Hy). apply tuple1_inj in Hxy. subst y.
    by apply (Hdisj x).
  - unfold concurrent_statements, bind, modify, resolve.
    cbn [begin next_values_sql target log_statement sequences]. by rewrite Hseq.
Qed.

(** With no interleaving at all the two callers get what two calls in a row
    return. *)
Lemma concurrent_get_next_values_in_turn (a b : Z) (w : world) (last : Z) :
  0 <= a ->
  current_value w = Some last ->
  fst (concurrent_get_next_values [] a b w) =
    inr (tuple1 <$> seqZ (last + 1) a, tuple1 <$> seqZ (last + a + 1) b).
Proof.
  intros Ha Hcur. destruct (current_value_some _ _ Hcur) as (db & Hdb & Hseq).
  rewrite (concurrent_get_next_values_on_database _ _ _ _ _ Hdb). cbn [fst].
  unfold concurrent_statements, bind, modify, resolve.
  cbn [begin next_values_sql target interleave].
  set (db2 := log_statement _ (log_statement _ db)).
  assert (Hseq2 : sequences db2 !! id_seq = Some last) by done.
  rewrite Hseq2. cbn beta iota. rewrite Hseq2. cbn beta iota.
  unfold session_finish. cbn [target pending fetched].
  rewrite (select_rows_nextval _ _ _ last) by done.
  rewrite (select_rows_nextval _ _ _ (last + Z.of_nat (length (generate_series 1 a))))
    by (cbn [set_sequences sequences]; apply lookup_insert_eq).
  cbn [fst snd fetched]. rewrite !length_generate_series.
  replace (a - 1 + 1) with a by lia. replace (b - 1 + 1) with b by lia.
  rewrite !seqZ_max. by replace (last + Z.max 0 a + 1) with (last + a + 1) by lia.
Qed.

(** An interleaving in which neither caller gets a consecutive range. *)
Example concurrent_get_next_values_interleaved :
  fst (concurrent_get_next_values [true; false; false; true] 3 4 (sample_world 10)) =
    inr ([[VInt 11]; [VInt 14]; [VInt 15]], [[VInt 12]; [VInt 13]; [VInt 16]; [VInt 17]]).
Proof. vm_compute. reflexivity. Qed.

(** C3, as the spec states it, fails: a call does not take its range in
    one piece.  With the sequence at 10 and a second call running at the
    same time, the caller that asks for three values can get 11, 14 and 15,
    which is no range of three consecutive values, whatever its start. *)
Lemma concurrent_get_next_values_not_consecutive :
  ~ (exists (m : Z) (rows_b : list row),
       fst (concurrent_get_next_values [true; false; false; true] 3 4 (sample_world 10)) =
         inr (tuple1 <$> seqZ m 3, rows_b)).
Proof.
  intros (m & rows_b & H).
  assert (Hrun :
    fst (concurrent_get_next_values [true; false; false; true] 3 4 (sample_world 10)) =
      inr ([[VInt 11]; [VInt 14]; [VInt 15]],
           [[VInt 12]; [VInt 13]; [VInt 16]; [VInt 17]]))
    by (vm_compute; reflexivity).
  rewrite Hrun in H. rewrite (seqZ_cons m 3) in H by lia.
  rewrite (seqZ_cons (Z.succ m) (Z.pred 3)) in H by lia.
  cbn [fmap list_fmap tuple1] in H. simplify_eq.
Qed.

(** * Further properties of [get_next_values] *)

(** ** What a call leaves alone *)

(** Apart from the connection for writes, every connection is what it was;
    on the connection for writes, every sequence but the one of the table is
    where it was; the router and the clock are untouched. *)
Theorem get_next_values_frame (num : Z) (w : world) :
  db_for_write_alias (snd (get_next_values num w)) = db_for_write_alias w /\
  clock (snd (get_next_values num w)) = clock w /\
  base.delete (db_for_write_alias w) (connections (snd (get_next_values num w))) =
    base.delete (db_for_write_alias w) (connections w) /\
  (fun db => base.delete id_seq (sequences db)) <$> write_database (snd (get_next_values num w)) =
    (fun db => base.delete id_seq (sequences db)) <$> write_database w.
Proof.
  destruct (write_database w) as [db|] eqn:Hdb.
  - destruct (sequences db !! id_seq) as [last|] eqn:Hseq.
    + rewrite (get_next_values_ok _ _ _ _ Hdb Hseq). cbn [snd].
      rewrite write_database_set_connection.
      cbn [set_connection db_for_write_alias clock connections].
      split; [done|]. split; [done|]. split; [apply delete_insert_eq|].
      cbn [fmap option_fmap option_map after_next_values set_sequences sequences
             log_statement].
      f_equal. apply delete_insert_eq.
    + rewrite (get_next_values_no_sequence _ _ _ Hdb Hseq). cbn [snd].
      rewrite write_database_set_connection.
      cbn [set_connection db_for_write_alias clock connections].
      split; [done|]. split; [done|]. split; [apply delete_insert_eq|done].
  - rewrite (get_next_values_no_connection _ _ Hdb). cbn [snd]. by rewrite Hdb.
Qed.

(** ** How a call fails *)

(** Without a connection under the alias the router gives, the call raises
    [ConnectionDoesNotExist] for that alias and nothing at all has changed:
    no statement has reached any database. *)
Theorem get_next_values_without_connection (num : Z) (w : world) :
  connections w !! db_for_write_alias w = None ->
  get_next_values num w = (inl (ConnectionDoesNotExist (db_for_write_alias w)), w).
Proof. intros Hdb. by apply get_next_values_no_connection. Qed.

Lemma get_next_values_without_connection_witness :
  connections {| db_for_write_alias := "replica"; connections := ∅; clock := 0 |}
    !! "replica" = None /\
  get_next_values 3 {| db_for_write_alias := "replica"; connections := ∅; clock := 0 |} =
    (inl (ConnectionDoesNotExist "replica"),
     {| db_for_write_alias := "replica"; connections := ∅; clock := 0 |}).
Proof.
  split; [reflexivity|].
  exact (get_next_values_without_connection 3
           {| db_for_write_alias := "replica"; connections := ∅; clock := 0 |} eq_refl).
Defined.

(** When the database has no sequence of the table's name, the call raises
    [ProgrammingError] naming the sequence, whatever [num] is (zero rows
    asked or many); the statement has been sent, and the sequences and the
    rows of the database are what they were. *)
Theorem get_next_values_without_sequence (num : Z) (w : world) (db : database) :
  write_database w = Some db ->
  sequences db !! id_seq = None ->
  fst (get_next_values num w) = inl (ProgrammingError id_seq) /\
  exists db',
    write_database (snd (get_next_values num w)) = Some db' /\
    sequences db' = sequences db /\
    table_rows db' = table_rows db /\
    statements db' = next_values_sql num :: statements db.
Proof.
  intros Hdb Hseq. rewrite (get_next_values_no_sequence _ _ _ Hdb Hseq).
  cbn [fst snd]. split; [done|]. eexists.
  split; [apply write_database_set_connection|done].
Qed.

Lemma get_next_values_without_sequence_witness :
  let db := {| sequences := ∅; table_rows := []; statements := [] |} in
  let w := {| db_for_write_alias := "default";
              connections := {[ "default" := db ]}; clock := 0 |} in
  write_database w = Some db /\
  sequences db !! id_seq = None /\
  fst (get_next_values 0 w) = inl (ProgrammingError id_seq) /\
  exists db',
    write_database (snd (get_next_values 0 w)) = Some db' /\
    sequences db' = sequences db /\
    table_rows db' = table_rows db /\
    statements db' = next_values_sql 0 :: statements db.
Proof.
  cbn zeta. split; [vm_compute; reflexivity|]. split; [vm_compute; reflexivity|].
  apply get_next_values_without_sequence; vm_compute; reflexivity.
Defined.

(** ** How calls compose *)

(** Two calls in a row, for [a] and then [b] values, return between them
    exactly what one call for [a + b] values returns, in the same order, and
    leave the sequence where that one call leaves it. *)
Theorem get_next_values_twice_as_one (a b : Z) (w : world) (last : Z) :
  0 <= a ->
  0 <= b ->
  current_value w = Some last ->
  exists rows_a rows_b : list row,
    fst (get_next_values a w) = inr rows_a /\
    fst (get_next_values b (snd (get_next_values a w))) = inr rows_b /\
    fst (get_next_values (a + b) w) = inr (rows_a ++ rows_b) /\
    current_value (snd (get_next_values b (snd (get_next_values a w)))) =
      current_value (snd (get_next_values (a + b) w)).
Proof.
  intros Ha Hb Hcur. destruct (current_value_some _ _ Hcur) as (db & Hdb & Hseq).
  rewrite !(get_next_values_ok _ _ _ _ Hdb Hseq). cbn [fst snd].
  set (db1 := after_next_values a last db).
  set (w1 := set_connection (db_for_write_alias w) db1 w).
  assert (Hdb1 : write_database w1 = Some db1)
    by apply write_database_set_connection.
  assert (Hseq1 : sequences db1 !! id_seq = Some (last + a)).
  { unfold db1. rewrite after_next_values_sequence. f_equal. lia. }
  rewrite (get_next_values_ok _ _ _ _ Hdb1 Hseq1). cbn [fst snd].
  exists (tuple1 <$> seqZ (last + 1) a), (tuple1 <$> seqZ (last + a + 1) b).
  split; [done|]. split; [done|]. split.
  - rewrite <- fmap_app. do 2 f_equal. rewrite seqZ_app by done.
    by replace (last + 1 + a) with (last + a + 1) by lia.
  - rewrite !current_value_set_connection, !after_next_values_sequence.
    f_equal. lia.
Qed.

Lemma get_next_values_twice_as_one_witness :
  0 <= 3 /\ 0 <= 2 /\ current_value (sample_world 10) = Some 10 /\
  exists rows_a rows_b : list row,
    fst (get_next_values 3 (sample_world 10)) = inr rows_a /\
    fst (get_next_values 2 (snd (get_next_values 3 (sample_world 10)))) = inr rows_b /\
    fst (get_next_values (3 + 2) (sample_world 10)) = inr (rows_a ++ rows_b) /\
    current_value (snd (get_next_values 2 (snd (get_next_values 3 (sample_world 10))))) =
      current_value (snd (get_next_values (3 + 2) (sample_world 10))).
Proof.
  split; [lia|]. split; [lia|]. split; [vm_compute; reflexivity|].
  apply (get_next_values_twice_as_one 3 2 (sample_world 10) 10);
    [lia | lia | vm_compute; reflexivity].
Defined.

Lemma values_taken_nonneg (nums : list Z) : 0 <= values_taken nums.
Proof.
  induction nums as [|num nums IH]; cbn [values_taken foldr]; [done|].
  fold (values_taken nums). lia.
Qed.

(** Any number of calls in a row, whatever counts they ask for (positive,
    zero or negative), return between them one unbroken range: the values
    from just above where the sequence stood, as many as the positive
    counts add up to; the sequence ends that far on. *)
Theorem get_next_values_in_a_row (nums : list Z) (w : world) (last : Z) :
  current_value w = Some last ->
  returned_rows (fst (run (GetNextValues <$> nums) w)) =
    tuple1 <$> seqZ (last + 1) (values_taken nums) /\
  current_value (snd (run (GetNextValues <$> nums) w)) = Some (last + values_taken nums).
Proof.
  revert w last. induction nums as [|num nums IH]; intros w last Hcur.
  { cbn. split; [done|]. rewrite Hcur. f_equal. lia. }
  destruct (current_value_some _ _ Hcur) as (db & Hdb & Hseq).
  rewrite fmap_cons, run_cons. cbn [fst snd perform]. rewrite answer_snd, answer_fst.
  rewrite (get_next_values_ok _ _ _ _ Hdb Hseq). cbn [fst snd].
  rewrite returned_rows_cons.
  set (w1 := set_connection (db_for_write_alias w) (after_next_values num last db) w).
  assert (Hcur1 : current_value w1 = Some (last + Z.max 0 num)).
  { unfold w1. by rewrite current_value_set_connection, after_next_values_sequence. }
  destruct (IH w1 _ Hcur1) as [Hrows Hend]. rewrite Hrows, Hend.
  cbn [values_taken foldr]. fold (values_taken nums).
  pose proof (values_taken_nonneg nums) as Hnn.
  split; [|f_equal; lia].
  rewrite <- fmap_app. f_equal. rewrite <- (seqZ_max _ num).
  rewrite (seqZ_app (last + 1)) by lia.
  by replace (last + 1 + Z.max 0 num) with (last + Z.max 0 num + 1) by lia.
Qed.

Lemma get_next_values_in_a_row_witness :
  current_value (sample_world 10) = Some 10 /\
  returned_rows (fst (run (GetNextValues <$> [2; 0; -3; 1]) (sample_world 10))) =
    [[VInt 11]; [VInt 12]; [VInt 13]] /\
  current_value (snd (run (GetNextValues <$> [2; 0; -3; 1]) (sample_world 10))) = Some 13.
Proof.
  split; [vm_compute; reflexivity|].
  apply (get_next_values_in_a_row [2; 0; -3; 1] (sample_world 10) 10).
  vm_compute; reflexivity.
Defined.

(** ** Reserved values and the rows of the table *)

(** When no row of the table has an [id] above the sequence (as when every
    [id] was drawn from it), no value a call returns is the [id] of a row of
    the table, and after the call still no row has an [id] above the
    sequence. *)
Theorem get_next_values_fresh_for_table (num : Z) (w : world) (db : database) (last : Z) :
  write_database w = Some db ->
  sequences db !! id_seq = Some last ->
  Forall (fun r => id r <= last) (table_rows db) ->
  exists (vs : list Z) (db' : database) (last' : Z),
    fst (get_next_values num w) = inr (tuple1 <$> vs) /\
    Forall (fun r => id r ∉ vs) (table_rows db) /\
    write_database (snd (get_next_values num w)) = Some db' /\
    sequences db' !! id_seq = Some last' /\
    Forall (fun r => id r <= last') (table_rows db').
Proof.
  intros Hdb Hseq Hids. rewrite (get_next_values_ok _ _ _ _ Hdb Hseq). cbn [fst snd].
  exists (seqZ (last + 1) num), (after_next_values num last db), (last + Z.max 0 num).
  split; [done|]. split; [|split; [apply write_database_set_connection|]].
  - eapply Forall_impl; [exact Hids|]. intros r Hr Hin. cbn beta in Hr.
    apply elem_of_seqZ in Hin. lia.
  - split; [apply after_next_values_sequence|].
    cbn [after_next_values set_sequences log_statement table_rows].
    eapply Forall_impl; [exact Hids|]. intros r Hr. cbn beta in Hr. lia.
Qed.

Lemma get_next_values_fresh_for_table_witness :
  let db := {| sequences := {[ id_seq := 12 ]};
               table_rows := [ {| id := 11; string_ := "a"; date_added := 0 |};
                               {| id := 12; string_ := "b"; date_added := 0 |} ];
               statements := [] |} in
  let w := {| db_for_write_alias := "default";
              connections := {[ "default" := db ]}; clock := 0 |} in
  write_database w = Some db /\
  sequences db !! id_seq = Some 12 /\
  Forall (fun r => id r <= 12) (table_rows db) /\
  exists (vs : list Z) (db' : database) (last' : Z),
    fst (get_next_values 2 w) = inr (tuple1 <$> vs) /\
    Forall (fun r => id r ∉ vs) (table_rows db) /\
    write_database (snd (get_next_values 2 w)) = Some db' /\
    sequences db' !! id_seq = Some last' /\
    Forall (fun r => id r <= last') (table_rows db').
Proof.
  cbn zeta.
  assert (H : Forall (fun r => id r <= 12)
                [ {| id := 11; string_ := "a"; date_added := 0 |};
                  {| id := 12; string_ := "b"; date_added := 0 |} ])
    by (repeat constructor; cbn; lia).
  split; [vm_compute; reflexivity|]. split; [vm_compute; reflexivity|].
  split; [exact H|].
  apply (get_next_values_fresh_for_table 2 _ _ 12); [vm_compute; reflexivity..|exact H].
Defined.

(** ** Two calls at the same time, in full *)

Lemma sessions_cover_sym (first : Z) (na nb : nat) (a b : session) (db : database) :
  sessions_cover first na nb a b db -> sessions_cover first nb na b a db.
Proof.
  intros (Ha & Hb & last & va & vb & Hseq & Hle & Hfa & Hfb & Hna & Hnb & Hsa & Hsb & Hperm).
  split; [done|]. split; [done|]. exists last, vb, va.
  repeat split; try done. by rewrite (Permutation_app_comm vb va).
Qed.

(** Fetching the next [n] values of the sequence into one of two lists that
    cover what the sequence has produced keeps that list ascending and the
    cover complete. *)
Lemma cover_extend (first last n : Z) (va vb : list Z) :
  first <= last ->
  0 <= n ->
  StronglySorted Z.lt va ->
  va ++ vb ≡ₚ seqZ (first + 1) (last - first) ->
  StronglySorted Z.lt (va ++ seqZ (last + 1) n) /\
  (va ++ seqZ (last + 1) n) ++ vb ≡ₚ seqZ (first + 1) (last + n - first).
Proof.
  intros Hle Hn Hsa Hperm. split.
  - apply StronglySorted_app_2; [|done|apply seqZ_sorted].
    intros x1 x2 H1 H2. apply elem_of_seqZ in H2.
    assert (Hin : x1 ∈ va ++ vb) by (apply elem_of_app; by left).
    rewrite Hperm in Hin. apply elem_of_seqZ in Hin. lia.
  - rewrite <- (assoc_L (++)), (Permutation_app_comm (seqZ (last + 1) n) vb).
    rewrite (assoc_L (++)), Hperm.
    replace (last + n - first) with ((last - first) + n) by lia.
    rewrite (seqZ_app (first + 1)) by lia.
    by replace (first + 1 + (last - first)) with (last + 1) by lia.
Qed.

Lemma session_step_cover (first : Z) (na nb : nat) (a b : session) (db : database) :
  sessions_cover first na nb a b db ->
  sessions_cover first na nb (fst (session_step a db)) b (snd (session_step a db)).
Proof.
  intros (Ha & Hb & last & va & vb & Hseq & Hle & Hfa & Hfb & Hna & Hnb & Hsa & Hsb & Hperm).
  unfold session_step. destruct (pending a) as [|x rest] eqn:Hpend.
  { cbn [fst snd]. split; [done|]. split; [done|]. exists last, va, vb.
    by rewrite Hpend. }
  rewrite Ha. cbn [eval_expr]. unfold bind, ret.
  rewrite (nextval_some _ _ _ Hseq). cbn [fst snd].
  destruct (cover_extend first last 1 va vb) as [Hs' Hperm']; [done|lia|done|done|].
  change (seqZ (last + 1) 1) with [last + 1] in Hs', Hperm'.
  split; [done|]. split; [done|]. exists (last + 1), (va ++ [last + 1]), vb.
  cbn [target pending fetched set_sequences sequences].
  split; [apply lookup_insert_eq|]. split; [lia|].
  split; [by rewrite Hfa, fmap_app|]. split; [done|].
  split; [rewrite length_app; cbn [length] in *; lia|].
  repeat split; done.
Qed.

Lemma session_finish_cover (first : Z) (na nb : nat) (a b : session) (db : database) :
  sessions_cover first na nb a b db ->
  sessions_cover first na nb (fst (session_finish a db)) b (snd (session_finish a db)) /\
  pending (fst (session_finish a db)) = [].
Proof.
  intros (Ha & Hb & last & va & vb & Hseq & Hle & Hfa & Hfb & Hna & Hnb & Hsa & Hsb & Hperm).
  unfold session_finish. rewrite Ha, (select_rows_nextval _ _ _ _ Hseq).
  cbn [fst snd pending]. split; [|done].
  set (n := Z.of_nat (length (pending a))).
  destruct (cover_extend first last n va vb) as [Hs' Hperm']; [done|lia|done|done|].
  split; [done|]. split; [done|].
  exists (last + n), (va ++ seqZ (last + 1) n), vb.
  cbn [target pending fetched set_sequences sequences].
  split; [apply lookup_insert_eq|]. split; [lia|].
  split; [by rewrite Hfa, fmap_app|]. split; [done|].
  split; [rewrite length_app, length_seqZ; cbn [length]; lia|].
  repeat split; done.
Qed.

Lemma interleave_cover (schedule : list bool) (first : Z) (na nb : nat)
    (a b : session) (db : database) :
  sessions_cover first na nb a b db ->
  sessions_cover first na nb (fst (fst (interleave schedule a b db)))
    (snd (fst (interleave schedule a b db))) (snd (interleave schedule a b db)) /\
  pending (fst (fst (interleave schedule a b db))) = [] /\
  pending (snd (fst (interleave schedule a b db))) = [].
Proof.
  revert a b db. induction schedule as [|turn rest IH]; intros a b db Hinv.
  - cbn [interleave].
    destruct (session_finish_cover _ _ _ _ _ _ Hinv) as [H1 Hp1].
    destruct (session_finish a db) as [a' db1]. cbn [fst snd] in H1, Hp1.
    destruct (session_finish_cover _ _ _ _ _ _ (sessions_cover_sym _ _ _ _ _ _ H1))
      as [H2 Hp2].
    destruct (session_finish b db1) as [b' db2]. cbn [fst snd] in H2, Hp2 |- *.
    split; [by apply sessions_cover_sym|done].
  - destruct turn; cbn [interleave].
    + pose proof (session_step_cover _ _ _ _ _ _ Hinv) as H1.
      destruct (session_step a db) as [a' db']. by apply IH.
    + pose proof (session_step_cover _ _ _ _ _ _ (sessions_cover_sym _ _ _ _ _ _ Hinv))
        as H1.
      destruct (session_step b db) as [b' db']. apply IH. by apply sessions_cover_sym.
Qed.

Lemma begin_next_values_cover (a b : Z) (db : database) (last : Z) :
  sequences db !! id_seq = Some last ->
  sessions_cover last (Z.to_nat a) (Z.to_nat b)
    (begin (next_values_sql a)) (begin (next_values_sql b)) db.
Proof.
  intros Hseq. split; [done|]. split; [done|]. exists last, [], [].
  cbn [begin next_values_sql pending fetched length].
  unfold generate_series. rewrite !length_seqZ.
  repeat split; try done; try lia; try constructor.
  by rewrite seqZ_nil by lia.
Qed.

Lemma concurrent_statements_cover (schedule : list bool) (a b : Z) (db : database) (last : Z) :
  sequences db !! id_seq = Some last ->
  exists (va vb : list Z) (db' : database),
    concurrent_statements schedule (next_values_sql a) (next_values_sql b) db =
      (inr (tuple1 <$> va, tuple1 <$> vb), db') /\
    StronglySorted Z.lt va /\
    StronglySorted Z.lt vb /\
    va ++ vb ≡ₚ seqZ (last + 1) (Z.max 0 a + Z.max 0 b) /\
    sequences db' !! id_seq = Some (last + Z.max 0 a + Z.max 0 b).
Proof.
  intros Hseq. unfold concurrent_statements, bind, modify, resolve.
  cbn [begin next_values_sql target log_statement sequences]. rewrite Hseq.
  set (db2 := log_statement _ (log_statement _ db)).
  assert (Hseq2 : sequences db2 !! id_seq = Some last) by done.
  rewrite Hseq2. cbn beta iota.
  destruct (interleave_cover schedule last _ _ _ _ db2
              (begin_next_values_cover a b db2 last Hseq2)) as (Hinv & Hpa & Hpb).
  cbn [begin next_values_sql] in Hinv, Hpa, Hpb.
  destruct (interleave schedule _ _ db2) as [[sa sb] db'].
  cbn [fst snd] in Hinv, Hpa, Hpb.
  destruct Hinv as (_ & _ & last' & va & vb & Hlast' & Hle & Hfa & Hfb & Hna & Hnb
                    & Hsa & Hsb & Hperm).
  exists va, vb, db'. rewrite Hfa, Hfb. rewrite Hpa in Hna. rewrite Hpb in Hnb.
  cbn [length] in Hna, Hnb.
  assert (Hlen : length (va ++ vb) = Z.to_nat (last' - last))
    by (by rewrite Hperm, length_seqZ).
  rewrite length_app in Hlen.
  assert (Hend : last' = last + Z.max 0 a + Z.max 0 b) by lia.
  subst last'. repeat split; try done.
  by replace (Z.max 0 a + Z.max 0 b) with (last + Z.max 0 a + Z.max 0 b - last) by lia.
Qed.

(** However the store interleaves two calls that run at the same time, each
    caller gets its own values in strictly ascending order, the two results
    together are exactly the values the sequence had next (each of them
    given to one caller, none left out), and the sequence ends as far on as
    the two counts add up to. *)
Theorem concurrent_get_next_values_cover (schedule : list bool) (a b : Z) (w : world)
    (last : Z) :
  current_value w = Some last ->
  exists va vb : list Z,
    fst (concurrent_get_next_values schedule a b w) = inr (tuple1 <$> va, tuple1 <$> vb) /\
    StronglySorted Z.lt va /\
    StronglySorted Z.lt vb /\
    va ++ vb ≡ₚ seqZ (last + 1) (Z.max 0 a + Z.max 0 b) /\
    current_value (snd (concurrent_get_next_values schedule a b w)) =
      Some (last + Z.max 0 a + Z.max 0 b).
Proof.
  intros Hcur. destruct (current_value_some _ _ Hcur) as (db & Hdb & Hseq).
  rewrite (concurrent_get_next_values_on_database _ _ _ _ _ Hdb). cbn [fst snd].
  destruct (concurrent_statements_cover schedule a b db last Hseq)
    as (va & vb & db' & -> & Hsa & Hsb & Hperm & Hend).
  exists va, vb. cbn [fst snd]. rewrite current_value_set_connection.
  repeat split; done.
Qed.

Lemma concurrent_get_next_values_cover_witness :
  current_value (sample_world 10) = Some 10 /\
  exists va vb : list Z,
    fst (concurrent_get_next_values [true; false; false; true] 3 4 (sample_world 10)) =
      inr (tuple1 <$> va, tuple1 <$> vb) /\
    StronglySorted Z.lt va /\
    StronglySorted Z.lt vb /\
    va ++ vb ≡ₚ seqZ (10 + 1) (Z.max 0 3 + Z.max 0 4) /\
    current_value (snd (concurrent_get_next_values [true; false; false; true] 3 4
                          (sample_world 10))) =
      Some (10 + Z.max 0 3 + Z.max 0 4).
Proof.
  split; [vm_compute; reflexivity|].
  apply (concurrent_get_next_values_cover [true; false; false; true] 3 4 (sample_world 10) 10).
  vm_compute; reflexivity.
Defined.
